(** * Euler angles <-> quaternions (intrinsic Z-Y-X): a shallow embedding

    Embedding of [src/rotation_converter.py]: the data class [EulerAngles]
    and the two static methods of [RotationConverter].

    Numbers.  A Python/numpy float is modelled by [float64]: a real number
    or one of the three special values of IEEE-754 (plus infinity, minus
    infinity, not-a-number).  Finite arithmetic is exact real arithmetic:
    rounding, overflow and the sign of zero are not modelled.  The special
    values follow numpy under its default error state, where an invalid
    operation or a division by zero emits a RuntimeWarning and yields
    nan or an infinity; no numpy call of the source raises.  The source has
    no [raise] of its own either, so both methods are total functions.

    Arrays.  The quaternion is the numpy array [[w, x, y, z]] of shape (4,),
    a record of four floats here.

    Output.  The [print] of the gimbal-lock branch is kept as a list of
    diagnostics next to the returned value.

    Range.  Exact arithmetic has neither underflow nor overflow, so what
    is proved of [quaternion_to_euler] on a finite quaternion is stated
    for norms between 1e-100 and 1e100, where binary64 has neither in the
    normalisation.  Outside, module [b64] evaluates line 58 in binary64
    itself (the kernel's floats) and hands the result to the rest of the
    method; it also holds the binary64 sum of an angle and 2*np.pi. *)

From Stdlib Require Import Floats ZArith.
From Stdlib Require Import Reals Lra RNsatz List Bool.
Set Warnings "-inexact-float".
Import ListNotations.
Local Open Scope R_scope.

(** ** Real-valued counterparts of the numpy primitives *)

(** [np.sign] on a real: -1, 0 or 1. *)
Definition Rsign (t : R) : R :=
  if Rlt_dec 0 t then 1 else if Rlt_dec t 0 then -1 else 0.

(** [np.clip(t, lo, hi)] is [minimum(maximum(t, lo), hi)]. *)
Definition Rclip (t lo hi : R) : R := Rmin (Rmax t lo) hi.

(** [np.arctan2(y, x)] on reals: the angle of the point (x, y), in
    (-pi, pi]; at the origin it is 0. *)
Definition atan2 (y x : R) : R :=
  if Rlt_dec 0 x then atan (y / x)
  else if Rlt_dec x 0 then
         if Rle_dec 0 y then atan (y / x) + PI else atan (y / x) - PI
  else if Rlt_dec 0 y then PI / 2
  else if Rlt_dec y 0 then - (PI / 2)
  else 0.

(** ** Floats *)

Inductive float64 : Type :=
| Fin (r : R)
| PInf
| NInf
| NaN.

Definition is_finite (a : float64) : Prop :=
  match a with Fin _ => True | _ => False end.

Definition is_nan (a : float64) : Prop :=
  match a with NaN => True | _ => False end.

(** The numpy (and Python float) operations the source uses. *)
Module np.

Definition pi : float64 := Fin PI.

Definition inf_of (positive : bool) : float64 :=
  if positive then PInf else NInf.

Definition neg (a : float64) : float64 :=
  match a with
  | Fin x => Fin (- x)
  | PInf => NInf
  | NInf => PInf
  | NaN => NaN
  end.

Definition add (a b : float64) : float64 :=
  match a, b with
  | NaN, _ | _, NaN => NaN
  | Fin x, Fin y => Fin (x + y)
  | PInf, NInf | NInf, PInf => NaN
  | PInf, _ | _, PInf => PInf
  | NInf, _ | _, NInf => NInf
  end.

Definition sub (a b : float64) : float64 := add a (neg b).

(** An infinity of the given sign times a finite [x]. *)
Definition mul_inf (positive : bool) (x : R) : float64 :=
  if Req_dec_T x 0 then NaN
  else if Rlt_dec 0 x then inf_of positive
  else inf_of (negb positive).

Definition mul (a b : float64) : float64 :=
  match a, b with
  | NaN, _ | _, NaN => NaN
  | Fin x, Fin y => Fin (x * y)
  | PInf, Fin y | Fin y, PInf => mul_inf true y
  | NInf, Fin y | Fin y, NInf => mul_inf false y
  | PInf, PInf | NInf, NInf => PInf
  | PInf, NInf | NInf, PInf => NInf
  end.

(** Division: 0/0 is nan, x/0 an infinity of the sign of x (the zero
    divisor counts as +0.0), both with a warning only. *)
Definition div (a b : float64) : float64 :=
  match a, b with
  | NaN, _ | _, NaN => NaN
  | Fin x, Fin y =>
      if Req_dec_T y 0 then
        if Req_dec_T x 0 then NaN
        else if Rlt_dec 0 x then PInf else NInf
      else Fin (x / y)
  | Fin _, PInf | Fin _, NInf => Fin 0
  | PInf, Fin y => if Rle_dec 0 y then PInf else NInf
  | NInf, Fin y => if Rle_dec 0 y then NInf else PInf
  | _, _ => NaN
  end.

Definition sqrt (a : float64) : float64 :=
  match a with
  | Fin x => if Rlt_dec x 0 then NaN else Fin (R_sqrt.sqrt x)
  | PInf => PInf
  | NInf | NaN => NaN
  end.

Definition cos (a : float64) : float64 :=
  match a with Fin x => Fin (Rtrigo_def.cos x) | _ => NaN end.

Definition sin (a : float64) : float64 :=
  match a with Fin x => Fin (Rtrigo_def.sin x) | _ => NaN end.

(** [np.arcsin]: nan (with a warning) outside [-1, 1]. *)
Definition arcsin (a : float64) : float64 :=
  match a with
  | Fin x =>
      if Rle_dec (-1) x then if Rle_dec x 1 then Fin (asin x) else NaN
      else NaN
  | _ => NaN
  end.

Definition arctan2 (a b : float64) : float64 :=
  match a, b with
  | NaN, _ | _, NaN => NaN
  | Fin y, Fin x => Fin (atan2 y x)
  | Fin _, PInf => Fin 0
  | Fin y, NInf => if Rle_dec 0 y then Fin PI else Fin (- PI)
  | PInf, Fin _ => Fin (PI / 2)
  | NInf, Fin _ => Fin (- (PI / 2))
  | PInf, PInf => Fin (PI / 4)
  | PInf, NInf => Fin (3 * PI / 4)
  | NInf, PInf => Fin (- (PI / 4))
  | NInf, NInf => Fin (- (3 * PI / 4))
  end.

Definition maximum (a b : float64) : float64 :=
  match a, b with
  | NaN, _ | _, NaN => NaN
  | PInf, _ | _, PInf => PInf
  | NInf, c | c, NInf => c
  | Fin x, Fin y => Fin (Rmax x y)
  end.

Definition minimum (a b : float64) : float64 :=
  match a, b with
  | NaN, _ | _, NaN => NaN
  | NInf, _ | _, NInf => NInf
  | PInf, c | c, PInf => c
  | Fin x, Fin y => Fin (Rmin x y)
  end.

Definition clip (a lo hi : float64) : float64 :=
  minimum (maximum a lo) hi.

Definition abs (a : float64) : float64 :=
  match a with
  | Fin x => Fin (Rabs x)
  | PInf | NInf => PInf
  | NaN => NaN
  end.

Definition sign (a : float64) : float64 :=
  match a with
  | Fin x => Fin (Rsign x)
  | PInf => Fin 1
  | NInf => Fin (-1)
  | NaN => NaN
  end.

(** [a > b]; every comparison with nan is False. *)
Definition gt (a b : float64) : bool :=
  match a, b with
  | NaN, _ | _, NaN => false
  | Fin x, Fin y => if Rlt_dec y x then true else false
  | PInf, PInf => false
  | PInf, _ => true
  | _, PInf => false
  | NInf, _ => false
  | Fin _, NInf => true
  end.

(** [np.degrees(a)]: a * (180 / pi). *)
Definition degrees (a : float64) : float64 := mul a (Fin (180 / PI)).

End np.

Declare Scope np_scope.
Delimit Scope np_scope with np.
Infix "+" := np.add : np_scope.
Infix "-" := np.sub : np_scope.
Infix "*" := np.mul : np_scope.
Infix "/" := np.div : np_scope.

(** ** Data model *)

(** [@dataclass class EulerAngles]: roll, pitch, yaw in radians. *)
Record EulerAngles : Type := mkEulerAngles {
  roll : float64;
  pitch : float64;
  yaw : float64
}.

(** [EulerAngles.to_degrees]. *)
Definition to_degrees (e : EulerAngles) : list float64 :=
  [np.degrees (roll e); np.degrees (pitch e); np.degrees (yaw e)].

(** The array [[w, x, y, z]]. *)
Record Quaternion : Type := mkQuaternion {
  qw : float64;
  qx : float64;
  qy : float64;
  qz : float64
}.

(** [np.linalg.norm(q)]: the 2-norm of the flat array. *)
Definition linalg_norm (q : Quaternion) : float64 :=
  np.sqrt (qw q * qw q + qx q * qx q + qy q * qy q + qz q * qz q)%np.

(** [q / s]: the array divided by a scalar, element by element. *)
Definition array_div (q : Quaternion) (s : float64) : Quaternion :=
  mkQuaternion (qw q / s)%np (qx q / s)%np (qy q / s)%np (qz q / s)%np.


(** [-q]: the array negated. *)
Definition array_neg (q : Quaternion) : Quaternion :=
  mkQuaternion (np.neg (qw q)) (np.neg (qx q)) (np.neg (qy q)) (np.neg (qz q)).

(** What the gimbal-lock branch prints: the pitch in degrees (shown by the
    source with one decimal after the fixed tag). *)
Inductive diagnostic : Type :=
| WarnGimbalLock (pitch_degrees : float64).

(** ** The converter *)

Module RotationConverter.

Definition SINGULARITY_TOLERANCE : float64 := Fin 1e-6.

Definition euler_to_quaternion (euler : EulerAngles) : Quaternion :=
  let cr := np.cos (roll euler * Fin 0.5)%np in
  let sr := np.sin (roll euler * Fin 0.5)%np in
  let cp := np.cos (pitch euler * Fin 0.5)%np in
  let sp := np.sin (pitch euler * Fin 0.5)%np in
  let cy := np.cos (yaw euler * Fin 0.5)%np in
  let sy := np.sin (yaw euler * Fin 0.5)%np in
  let w := (cr * cp * cy + sr * sp * sy)%np in
  let x := (sr * cp * cy - cr * sp * sy)%np in
  let y := (cr * sp * cy + sr * cp * sy)%np in
  let z := (cr * cp * sy - sr * sp * cy)%np in
  let q := mkQuaternion w x y z in
  array_div q (linalg_norm q).

(** The clamped sine-of-pitch term: what the branch test reads and what
    [np.arcsin] receives in the regular branch. *)
Definition clamped_t0 (q : Quaternion) : float64 :=
  let q := array_div q (linalg_norm q) in
  let '(w, x, y, z) := (qw q, qx q, qy q, qz q) in
  let t0 := (Fin 2 * (w * y - z * x))%np in
  np.clip t0 (Fin (-1)) (Fin 1).

(** The test of the [if]: gimbal lock detected. *)
Definition singular (q : Quaternion) : bool :=
  np.gt (np.abs (clamped_t0 q)) (Fin 1 - SINGULARITY_TOLERANCE)%np.

(** The method with its output: the returned angles and what was
    printed. *)
Definition quaternion_to_euler_run (q : Quaternion)
  : EulerAngles * list diagnostic :=
  let q := array_div q (linalg_norm q) in
  let '(w, x, y, z) := (qw q, qx q, qy q, qz q) in
  let t0 := (Fin 2 * (w * y - z * x))%np in
  let t0 := np.clip t0 (Fin (-1)) (Fin 1) in
  if np.gt (np.abs t0) (Fin 1 - SINGULARITY_TOLERANCE)%np then
    let pitch := (np.pi / Fin 2 * np.sign t0)%np in
    let roll := Fin 0 in
    let yaw := (Fin 2 * np.arctan2 x w)%np in
    (mkEulerAngles roll pitch yaw, [WarnGimbalLock (np.degrees pitch)])
  else
    let pitch := np.arcsin t0 in
    let roll :=
      np.arctan2 (Fin 2 * (w * x + y * z))%np
                 (Fin 1 - Fin 2 * (x * x + y * y))%np in
    let yaw :=
      np.arctan2 (Fin 2 * (w * z + x * y))%np
                 (Fin 1 - Fin 2 * (y * y + z * z))%np in
    (mkEulerAngles roll pitch yaw, []).

Definition quaternion_to_euler (q : Quaternion) : EulerAngles :=
  fst (quaternion_to_euler_run q).

End RotationConverter.

Import RotationConverter.

(** ** Finite values: the real-arithmetic reading of both methods *)

Definition finE (r p y : R) : EulerAngles :=
  mkEulerAngles (Fin r) (Fin p) (Fin y).

Definition finQ (w x y z : R) : Quaternion :=
  mkQuaternion (Fin w) (Fin x) (Fin y) (Fin z).

Definition finite_quaternion (q : Quaternion) : Prop :=
  is_finite (qw q) /\ is_finite (qx q) /\ is_finite (qy q) /\ is_finite (qz q).

Definition has_nan (e : EulerAngles) : Prop :=
  is_nan (roll e) \/ is_nan (pitch e) \/ is_nan (yaw e).

(** Euclidean norm of four reals. *)
Definition norm4 (w x y z : R) : R := sqrt (w * w + x * x + y * y + z * z).

(** The four components of step 2 of [euler_to_quaternion], before the
    normalisation. *)
Definition zyx_w (r p y : R) : R :=
  cos (r * 0.5) * cos (p * 0.5) * cos (y * 0.5)
  + sin (r * 0.5) * sin (p * 0.5) * sin (y * 0.5).
Definition zyx_x (r p y : R) : R :=
  sin (r * 0.5) * cos (p * 0.5) * cos (y * 0.5)
  - cos (r * 0.5) * sin (p * 0.5) * sin (y * 0.5).
Definition zyx_y (r p y : R) : R :=
  cos (r * 0.5) * sin (p * 0.5) * cos (y * 0.5)
  + sin (r * 0.5) * cos (p * 0.5) * sin (y * 0.5).
Definition zyx_z (r p y : R) : R :=
  cos (r * 0.5) * cos (p * 0.5) * sin (y * 0.5)
  - sin (r * 0.5) * sin (p * 0.5) * cos (y * 0.5).

(** The clamped t0 of a quaternion that is already normalised. *)
Definition t0R (w x y z : R) : R := Rclip (2 * (w * y - z * x)) (-1) 1.

(** [quaternion_to_euler] on a normalised quaternion of reals. *)
Definition angles_of_unit (w x y z : R) : EulerAngles :=
  let t0 := t0R w x y z in
  if Rlt_dec (1 - 1e-6) (Rabs t0) then
    finE 0 (PI / 2 * Rsign t0) (2 * atan2 x w)
  else
    finE (atan2 (2 * (w * x + y * z)) (1 - 2 * (x * x + y * y)))
         (asin t0)
         (atan2 (2 * (w * z + x * y)) (1 - 2 * (y * y + z * z))).

(** Two floats agree within an absolute tolerance (both finite). *)
Definition close_float (tol : R) (a b : float64) : Prop :=
  match a, b with
  | Fin x, Fin y => Rabs (x - y) <= tol
  | _, _ => False
  end.

(** Two Euler triples agree component-wise within a tolerance. *)
Definition close_euler (tol : R) (e1 e2 : EulerAngles) : Prop :=
  close_float tol (roll e1) (roll e2)
  /\ close_float tol (pitch e1) (pitch e2)
  /\ close_float tol (yaw e1) (yaw e2).

(** Two quaternions agree component-wise within a tolerance. *)
Definition close_quaternion (tol : R) (a b : Quaternion) : Prop :=
  close_float tol (qw a) (qw b)
  /\ close_float tol (qx a) (qx b)
  /\ close_float tol (qy a) (qy b)
  /\ close_float tol (qz a) (qz b).

(** ** The method from the clamp on *)

(** Line 67: the clamp of the t0 computed at line 63. *)
Definition clamp_t0 (t0 : float64) : float64 :=
  np.clip t0 (Fin (-1)) (Fin 1).

(** Lines 67 to 92 of [quaternion_to_euler], as a function of the t0 that
    line 63 computed and of the normalised components: whatever rounding
    made of t0, this is what the method does with it. *)
Definition angles_from_t0 (t0 w x y z : float64)
  : EulerAngles * list diagnostic :=
  let t0 := clamp_t0 t0 in
  if np.gt (np.abs t0) (Fin 1 - SINGULARITY_TOLERANCE)%np then
    let pitch := (np.pi / Fin 2 * np.sign t0)%np in
    let roll := Fin 0 in
    let yaw := (Fin 2 * np.arctan2 x w)%np in
    (mkEulerAngles roll pitch yaw, [WarnGimbalLock (np.degrees pitch)])
  else
    let pitch := np.arcsin t0 in
    let roll :=
      np.arctan2 (Fin 2 * (w * x + y * z))%np
                 (Fin 1 - Fin 2 * (x * x + y * y))%np in
    let yaw :=
      np.arctan2 (Fin 2 * (w * z + x * y))%np
                 (Fin 1 - Fin 2 * (y * y + z * z))%np in
    (mkEulerAngles roll pitch yaw, []).

(** ** Binary64 *)

(** The steps whose outcome depends on the range and the precision of
    binary64, computed with the kernel's IEEE-754 floats. *)
Module b64.

(** The value of a binary64 float, as a float of the model. *)
Definition of_spec (f : spec_float) : float64 :=
  match f with
  | S754_zero _ => Fin 0
  | S754_infinity false => PInf
  | S754_infinity true => NInf
  | S754_nan => NaN
  | S754_finite s m e =>
      Fin ((if s then -1 else 1) * IZR (Zpos m)
           * match e with
             | Z0 => 1
             | Zpos k => IZR (Z.pow_pos 2 k)
             | Zneg k => / IZR (Z.pow_pos 2 k)
             end)
  end.

Definition to_model (a : float) : float64 := of_spec (Prim2SF a).

(** [np.pi]. *)
Definition pi : float := 0x1.921fb54442d18p+1%float.

(** [angle + 2 * np.pi]. *)
Definition plus_two_pi (a : float) : float := (a + 2 * pi)%float.

(** [np.linalg.norm(q)] on [[w, x, y, z]]. *)
Definition linalg_norm (w x y z : float) : float :=
  PrimFloat.sqrt (w * w + x * x + y * y + z * z)%float.

(** Line 58, [q / np.linalg.norm(q)], read back in the model. *)
Definition normalised (w x y z : float) : Quaternion :=
  let n := linalg_norm w x y z in
  mkQuaternion (to_model (w / n)) (to_model (x / n))
               (to_model (y / n)) (to_model (z / n)).

(** [quaternion_to_euler] with line 58 in binary64 and lines 59 to 92 as
    modelled. *)
Definition to_euler_run (w x y z : float) : EulerAngles * list diagnostic :=
  let u := normalised w x y z in
  angles_from_t0 (Fin 2 * (qw u * qy u - qz u * qx u))%np
                 (qw u) (qx u) (qy u) (qz u).

End b64.

(** ** Vocabulary of the further properties *)

Definition finite_euler (e : EulerAngles) : Prop :=
  is_finite (roll e) /\ is_finite (pitch e) /\ is_finite (yaw e).

(** The all-nan results that numpy's propagation produces. *)
Definition nan_quaternion : Quaternion := mkQuaternion NaN NaN NaN NaN.
Definition nan_euler : EulerAngles := mkEulerAngles NaN NaN NaN.

(** Hamilton product of two quaternions [[w, x, y, z]].  It is not part of
    the source; it states what the "Z-Y-X sequence" of step 2 of
    [euler_to_quaternion] composes. *)
Definition hamilton (a b : Quaternion) : Quaternion :=
  mkQuaternion
    (qw a * qw b - qx a * qx b - qy a * qy b - qz a * qz b)%np
    (qw a * qx b + qx a * qw b + qy a * qz b - qz a * qy b)%np
    (qw a * qy b - qx a * qz b + qy a * qw b + qz a * qx b)%np
    (qw a * qz b + qx a * qy b - qy a * qx b + qz a * qw b)%np.

(** * Properties *)

(** ** The primitives on finite values *)

Section Primitives.

Lemma sqrt_fin (x : R) : 0 <= x -> np.sqrt (Fin x) = Fin (sqrt x).
Proof.
intros Hx. unfold np.sqrt. destruct (Rlt_dec x 0); [lra | reflexivity].
Qed.

Lemma div_fin (x y : R) : y <> 0 -> np.div (Fin x) (Fin y) = Fin (x / y).
Proof.
intros Hy. unfold np.div. destruct (Req_dec_T y 0); [contradiction | reflexivity].
Qed.

Lemma div_zero_zero : np.div (Fin 0) (Fin 0) = NaN.
Proof.
unfold np.div. destruct (Req_dec_T 0 0) as [_ | H]; [reflexivity | now elim H].
Qed.

Lemma arcsin_fin (x : R) : -1 <= x <= 1 -> np.arcsin (Fin x) = Fin (asin x).
Proof.
intros [H1 H2]. unfold np.arcsin.
destruct (Rle_dec (-1) x); [| lra]. destruct (Rle_dec x 1); [reflexivity | lra].
Qed.

Lemma arcsin_out_of_domain (x : R) : 1 < x \/ x < -1 -> np.arcsin (Fin x) = NaN.
Proof.
intros H. unfold np.arcsin.
destruct (Rle_dec (-1) x); [| reflexivity].
destruct (Rle_dec x 1); [lra | reflexivity].
Qed.

Lemma clip_fin (t : R) :
  np.clip (Fin t) (Fin (-1)) (Fin 1) = Fin (Rclip t (-1) 1).
Proof. reflexivity. Qed.

Lemma Rclip_bounds (t : R) : -1 <= Rclip t (-1) 1 <= 1.
Proof.
unfold Rclip, Rmin, Rmax.
destruct (Rle_dec t (-1)); destruct (Rle_dec _ 1); lra.
Qed.

Lemma Rclip_id (t : R) : -1 <= t <= 1 -> Rclip t (-1) 1 = t.
Proof.
intros [H1 H2]. unfold Rclip, Rmin, Rmax.
destruct (Rle_dec t (-1)); destruct (Rle_dec _ 1); lra.
Qed.

Lemma Rsign_pos (t : R) : 0 < t -> Rsign t = 1.
Proof. intros H. unfold Rsign. destruct (Rlt_dec 0 t); [reflexivity | lra]. Qed.

Lemma Rsign_neg (t : R) : t < 0 -> Rsign t = -1.
Proof.
intros H. unfold Rsign. destruct (Rlt_dec 0 t); [lra |].
destruct (Rlt_dec t 0); [reflexivity | lra].
Qed.

Lemma Rsign_cases (t : R) : Rsign t = -1 \/ Rsign t = 0 \/ Rsign t = 1.
Proof.
unfold Rsign. destruct (Rlt_dec 0 t); [auto |].
destruct (Rlt_dec t 0); auto.
Qed.

Lemma norm4_nonneg_arg (w x y z : R) : 0 <= w * w + x * x + y * y + z * z.
Proof. nra. Qed.

Lemma norm4_pos (w x y z : R) :
  (w, x, y, z) <> (0, 0, 0, 0) -> 0 < norm4 w x y z.
Proof.
intros Hne. unfold norm4. apply sqrt_lt_R0.
destruct (Req_dec w 0) as [Hw | Hw]; [| nra].
destruct (Req_dec x 0) as [Hx | Hx]; [| nra].
destruct (Req_dec y 0) as [Hy | Hy]; [| nra].
destruct (Req_dec z 0) as [Hz | Hz]; [| nra].
subst. now elim Hne.
Qed.

Lemma linalg_norm_fin (w x y z : R) :
  linalg_norm (finQ w x y z) = Fin (norm4 w x y z).
Proof.
unfold linalg_norm, finQ, norm4. cbn [qw qx qy qz np.mul np.add].
apply sqrt_fin, norm4_nonneg_arg.
Qed.

End Primitives.

(** ** The two-argument arctangent *)

Ltac case_dec :=
  repeat match goal with
    | |- context [Rlt_dec ?a ?b] => destruct (Rlt_dec a b)
    | |- context [Rle_dec ?a ?b] => destruct (Rle_dec a b)
    | |- context [Req_dec_T ?a ?b] => destruct (Req_dec_T a b)
    end.

Section Atan2.

Lemma atan_nonpos (t : R) : t <= 0 -> atan t <= 0.
Proof.
intros [Ht | Ht].
- left. rewrite <- atan_0. now apply atan_increasing.
- subst. rewrite atan_0. lra.
Qed.

Lemma atan_pos (t : R) : 0 < t -> 0 < atan t.
Proof. intros Ht. rewrite <- atan_0. now apply atan_increasing. Qed.

Lemma atan2_range (y x : R) : - PI < atan2 y x <= PI.
Proof.
pose proof PI_RGT_0 as Hpi.
unfold atan2.
destruct (Rlt_dec 0 x) as [Hx | Hx].
- pose proof (atan_bound (y / x)). lra.
- destruct (Rlt_dec x 0) as [Hx' | Hx'].
  + pose proof (atan_bound (y / x)) as Hb.
    destruct (Rle_dec 0 y) as [Hy | Hy].
    * assert (y / x <= 0) as Hq.
      { unfold Rdiv. assert (/ x < 0) by now apply Rinv_lt_0_compat. nra. }
      pose proof (atan_nonpos _ Hq). lra.
    * assert (0 < y / x) as Hq.
      { unfold Rdiv. assert (/ x < 0) by now apply Rinv_lt_0_compat. nra. }
      pose proof (atan_pos _ Hq). lra.
  + destruct (Rlt_dec 0 y); [lra |]. destruct (Rlt_dec y 0); lra.
Qed.

Lemma atan2_scale (c y x : R) : 0 < c -> atan2 (c * y) (c * x) = atan2 y x.
Proof.
intros Hc. unfold atan2.
assert (forall a, a <> 0 -> c * y / (c * a) = y / a) as Hq by (intros; field; lra).
destruct (Rlt_dec 0 x); destruct (Rlt_dec 0 (c * x)); try nra.
- rewrite Hq by lra. reflexivity.
- destruct (Rlt_dec x 0); destruct (Rlt_dec (c * x) 0); try nra.
  + rewrite Hq by lra.
    destruct (Rle_dec 0 y); destruct (Rle_dec 0 (c * y)); try nra; reflexivity.
  + destruct (Rlt_dec 0 y); destruct (Rlt_dec 0 (c * y)); try nra; try reflexivity.
    destruct (Rlt_dec y 0); destruct (Rlt_dec (c * y) 0); try nra; reflexivity.
Qed.

(** The angle of a point on the ray of direction theta is theta. *)
Lemma atan2_polar (c theta : R) :
  0 < c -> - PI < theta <= PI ->
  atan2 (c * sin theta) (c * cos theta) = theta.
Proof.
intros Hc [Hlo Hhi]. rewrite atan2_scale by assumption.
pose proof PI_RGT_0 as Hpi. unfold atan2.
destruct (Rlt_le_dec theta (- (PI / 2))) as [H1 | H1].
- (* third quadrant *)
  assert (cos theta < 0) as Hcos.
  { rewrite <- cos_neg. apply cos_lt_0; lra. }
  assert (sin theta < 0) as Hsin by (apply sin_lt_0_var; lra).
  destruct (Rlt_dec 0 (cos theta)); [lra |].
  destruct (Rlt_dec (cos theta) 0); [| lra].
  destruct (Rle_dec 0 (sin theta)); [lra |].
  replace (sin theta / cos theta) with (tan (theta + PI)).
  + rewrite atan_tan by lra. lra.
  + unfold tan. rewrite neg_sin, neg_cos. field. lra.
- destruct (Req_dec theta (- (PI / 2))) as [H2 | H2].
  + subst theta. rewrite cos_neg, sin_neg, cos_PI2, sin_PI2.
    case_dec; lra.
  + destruct (Rlt_le_dec theta (PI / 2)) as [H3 | H3].
    * assert (0 < cos theta) as Hcos by (apply cos_gt_0; lra).
      destruct (Rlt_dec 0 (cos theta)); [| lra].
      change (sin theta / cos theta) with (tan theta).
      apply atan_tan. lra.
    * destruct (Req_dec theta (PI / 2)) as [H4 | H4].
      -- subst theta. rewrite cos_PI2, sin_PI2.
         case_dec; lra.
      -- assert (cos theta < 0) as Hcos by (apply cos_lt_0; lra).
         assert (0 <= sin theta) as Hsin by (apply sin_ge_0; lra).
         destruct (Rlt_dec 0 (cos theta)); [lra |].
         destruct (Rlt_dec (cos theta) 0); [| lra].
         destruct (Rle_dec 0 (sin theta)); [| lra].
         replace (sin theta / cos theta) with (tan (theta - PI)).
         ++ rewrite atan_tan by lra. lra.
         ++ unfold tan.
            replace (theta - PI) with (- (PI - theta)) by lra.
            rewrite sin_neg, cos_neg.
            replace (PI - theta) with (- theta + PI) by lra.
            rewrite neg_sin, neg_cos, sin_neg, cos_neg. field. lra.
Qed.

End Atan2.

(** ** Half-angle algebra of the Z-Y-X composition *)

Section HalfAngles.
Variables cr sr cp sp cy sy : R.
Hypothesis Hr : sr * sr + cr * cr = 1.
Hypothesis Hp : sp * sp + cp * cp = 1.
Hypothesis Hy : sy * sy + cy * cy = 1.
Let w := cr * cp * cy + sr * sp * sy.
Let x := sr * cp * cy - cr * sp * sy.
Let y := cr * sp * cy + sr * cp * sy.
Let z := cr * cp * sy - sr * sp * cy.

Lemma half_norm : w * w + x * x + y * y + z * z = 1.
Proof. subst w x y z. nsatz. Qed.

Lemma half_t0 : 2 * (w * y - z * x) = 2 * sp * cp.
Proof. subst w x y z. nsatz. Qed.

Lemma half_roll_sin : 2 * (w * x + y * z) = (2 * sr * cr) * (cp * cp - sp * sp).
Proof. subst w x y z. nsatz. Qed.

Lemma half_roll_cos : 1 - 2 * (x * x + y * y) = (cr * cr - sr * sr) * (cp * cp - sp * sp).
Proof. subst w x y z. nsatz. Qed.

Lemma half_yaw_sin : 2 * (w * z + x * y) = (2 * sy * cy) * (cp * cp - sp * sp).
Proof. subst w x y z. nsatz. Qed.

Lemma half_yaw_cos : 1 - 2 * (y * y + z * z) = (cy * cy - sy * sy) * (cp * cp - sp * sp).
Proof. subst w x y z. nsatz. Qed.
End HalfAngles.

(** ** Both methods on finite input *)

Section Converter.

Lemma sin_cos_sqr (a : R) : sin a * sin a + cos a * cos a = 1.
Proof. exact (sin2_cos2 a). Qed.

Lemma sin_half (a : R) : 2 * sin (a * 0.5) * cos (a * 0.5) = sin a.
Proof. rewrite <- sin_2a. f_equal. lra. Qed.

Lemma cos_half (a : R) :
  cos (a * 0.5) * cos (a * 0.5) - sin (a * 0.5) * sin (a * 0.5) = cos a.
Proof. rewrite <- cos_2a. f_equal. lra. Qed.

Lemma zyx_norm (r p y : R) :
  norm4 (zyx_w r p y) (zyx_x r p y) (zyx_y r p y) (zyx_z r p y) = 1.
Proof.
unfold norm4, zyx_w, zyx_x, zyx_y, zyx_z.
rewrite half_norm by apply sin_cos_sqr. apply sqrt_1.
Qed.

Lemma zyx_t0 (r p y : R) :
  2 * (zyx_w r p y * zyx_y r p y - zyx_z r p y * zyx_x r p y) = sin p.
Proof.
unfold zyx_w, zyx_x, zyx_y, zyx_z.
rewrite half_t0 by apply sin_cos_sqr. apply sin_half.
Qed.

Lemma zyx_roll_sin (r p y : R) :
  2 * (zyx_w r p y * zyx_x r p y + zyx_y r p y * zyx_z r p y) = cos p * sin r.
Proof.
unfold zyx_w, zyx_x, zyx_y, zyx_z.
rewrite half_roll_sin by apply sin_cos_sqr. rewrite sin_half, cos_half. ring.
Qed.

Lemma zyx_roll_cos (r p y : R) :
  1 - 2 * (zyx_x r p y * zyx_x r p y + zyx_y r p y * zyx_y r p y) = cos p * cos r.
Proof.
unfold zyx_x, zyx_y.
rewrite half_roll_cos by apply sin_cos_sqr. rewrite !cos_half. ring.
Qed.

Lemma zyx_yaw_sin (r p y : R) :
  2 * (zyx_w r p y * zyx_z r p y + zyx_x r p y * zyx_y r p y) = cos p * sin y.
Proof.
unfold zyx_w, zyx_x, zyx_y, zyx_z.
rewrite half_yaw_sin by apply sin_cos_sqr. rewrite sin_half, cos_half. ring.
Qed.

Lemma zyx_yaw_cos (r p y : R) :
  1 - 2 * (zyx_y r p y * zyx_y r p y + zyx_z r p y * zyx_z r p y) = cos p * cos y.
Proof.
unfold zyx_y, zyx_z.
rewrite (half_yaw_cos (cos (r * 0.5)) (sin (r * 0.5))) by apply sin_cos_sqr.
rewrite !cos_half. ring.
Qed.

(** The method is a plain conditional on [singular]; the regular branch
    hands [clamped_t0] to arcsin. *)
Lemma quaternion_to_euler_branches (q : Quaternion) :
  let u := array_div q (linalg_norm q) in
  quaternion_to_euler q
  = if singular q then
      mkEulerAngles (Fin 0)
                    (np.pi / Fin 2 * np.sign (clamped_t0 q))%np
                    (Fin 2 * np.arctan2 (qx u) (qw u))%np
    else
      mkEulerAngles
        (np.arctan2 (Fin 2 * (qw u * qx u + qy u * qz u))%np
                    (Fin 1 - Fin 2 * (qx u * qx u + qy u * qy u))%np)
        (np.arcsin (clamped_t0 q))
        (np.arctan2 (Fin 2 * (qw u * qz u + qx u * qy u))%np
                    (Fin 1 - Fin 2 * (qy u * qy u + qz u * qz u))%np).
Proof.
intros u. unfold quaternion_to_euler, quaternion_to_euler_run, singular,
  clamped_t0. fold u.
now destruct (np.gt _ _).
Qed.

(** The warning is printed exactly in the gimbal-lock branch. *)
Lemma quaternion_to_euler_prints (q : Quaternion) :
  snd (quaternion_to_euler_run q)
  = if singular q
    then [WarnGimbalLock (np.degrees (pitch (quaternion_to_euler q)))]
    else [].
Proof.
unfold quaternion_to_euler, quaternion_to_euler_run, singular, clamped_t0.
now destruct (np.gt _ _).
Qed.

(** On finite angles the normalisation divides by exactly 1. *)
Lemma euler_to_quaternion_fin (r p y : R) :
  euler_to_quaternion (finE r p y)
  = finQ (zyx_w r p y) (zyx_x r p y) (zyx_y r p y) (zyx_z r p y).
Proof.
unfold euler_to_quaternion, finE.
cbn [roll pitch yaw np.mul np.cos np.sin np.add np.sub np.neg].
change (mkQuaternion (Fin ?a) (Fin ?b) (Fin ?c) (Fin ?d)) with (finQ a b c d).
fold (zyx_w r p y) (zyx_x r p y) (zyx_y r p y) (zyx_z r p y).
rewrite linalg_norm_fin, zyx_norm.
unfold array_div, finQ. cbn [qw qx qy qz].
rewrite !div_fin by lra. now rewrite !Rdiv_1_r.
Qed.

(** On a finite quaternion of non-zero norm the method is
    [angles_of_unit] of the normalised components. *)
Lemma quaternion_to_euler_run_fin (w x y z : R) :
  norm4 w x y z <> 0 ->
  let n := norm4 w x y z in
  quaternion_to_euler_run (finQ w x y z)
  = (angles_of_unit (w / n) (x / n) (y / n) (z / n),
     if Rlt_dec (1 - 1e-6) (Rabs (t0R (w / n) (x / n) (y / n) (z / n)))
     then [WarnGimbalLock
             (Fin (PI / 2 * Rsign (t0R (w / n) (x / n) (y / n) (z / n))
                   * (180 / PI)))]
     else []).
Proof.
intros Hn n. unfold quaternion_to_euler_run.
rewrite linalg_norm_fin. fold n.
unfold array_div, finQ. cbn [qw qx qy qz].
rewrite !div_fin by assumption.
cbn [np.mul np.sub np.add np.neg np.clip np.maximum np.minimum np.abs
     SINGULARITY_TOLERANCE np.gt np.pi].
unfold angles_of_unit, t0R, Rclip.
destruct (Rlt_dec _ _) as [Hs | Hs].
- unfold np.pi, np.degrees. rewrite div_fin by lra. reflexivity.
- fold (Rclip (2 * (w / n * (y / n) + - (z / n * (x / n)))) (-1) 1).
  rewrite arcsin_fin by apply Rclip_bounds. reflexivity.
Qed.

Lemma quaternion_to_euler_fin (w x y z : R) :
  norm4 w x y z <> 0 ->
  let n := norm4 w x y z in
  quaternion_to_euler (finQ w x y z)
  = angles_of_unit (w / n) (x / n) (y / n) (z / n).
Proof.
intros Hn n. unfold quaternion_to_euler.
now rewrite quaternion_to_euler_run_fin.
Qed.

Lemma norm4_zero : norm4 0 0 0 0 = 0.
Proof.
unfold norm4. replace (0 * 0 + 0 * 0 + 0 * 0 + 0 * 0) with 0 by ring.
apply sqrt_0.
Qed.

Lemma quaternion_to_euler_run_zero :
  quaternion_to_euler_run (finQ 0 0 0 0) = (mkEulerAngles NaN NaN NaN, []).
Proof.
unfold quaternion_to_euler_run.
rewrite linalg_norm_fin, norm4_zero.
unfold array_div, finQ. cbn [qw qx qy qz].
rewrite div_zero_zero. reflexivity.
Qed.

End Converter.

(** ** The method from the clamp on, and binary64 *)

Section FromT0.

(** [quaternion_to_euler] is [angles_from_t0] of the t0 of line 63. *)
Lemma quaternion_to_euler_run_from_t0 (q : Quaternion) :
  let u := array_div q (linalg_norm q) in
  quaternion_to_euler_run q
  = angles_from_t0 (Fin 2 * (qw u * qy u - qz u * qx u))%np
                   (qw u) (qx u) (qy u) (qz u).
Proof. reflexivity. Qed.

Lemma clamp_t0_fin (raw : R) : clamp_t0 (Fin raw) = Fin (Rclip raw (-1) 1).
Proof. reflexivity. Qed.

(** On finite values: the two branches. *)
Lemma angles_from_t0_fin (raw w x y z : R) :
  let t := Rclip raw (-1) 1 in
  angles_from_t0 (Fin raw) (Fin w) (Fin x) (Fin y) (Fin z)
  = if Rlt_dec (1 - 1e-6) (Rabs t) then
      (finE 0 (PI / 2 * Rsign t) (2 * atan2 x w),
       [WarnGimbalLock (Fin (PI / 2 * Rsign t * (180 / PI)))])
    else
      (finE (atan2 (2 * (w * x + y * z)) (1 - 2 * (x * x + y * y)))
            (asin t)
            (atan2 (2 * (w * z + x * y)) (1 - 2 * (y * y + z * z))),
       []).
Proof.
intros t. unfold angles_from_t0. rewrite clamp_t0_fin. fold t.
cbn [np.abs SINGULARITY_TOLERANCE np.sub np.add np.neg np.gt].
destruct (Rlt_dec _ _) as [Hs | Hs].
- unfold np.pi, np.degrees. rewrite div_fin by lra. reflexivity.
- rewrite arcsin_fin by apply Rclip_bounds. reflexivity.
Qed.

(** A zero norm by underflow: the squares of 1e-200 are 0.0 in binary64,
    and the division leaves infinities and nan. *)
Lemma normalised_underflow :
  b64.normalised 1e-200 1e-200 0 0 = mkQuaternion PInf PInf NaN NaN.
Proof. reflexivity. Qed.

(** An infinite norm by overflow: the squares of 1e200 are inf, and the
    division leaves the zero array. *)
Lemma normalised_overflow :
  b64.normalised 1e200 1e200 0 0
  = mkQuaternion (Fin 0) (Fin 0) (Fin 0) (Fin 0).
Proof. reflexivity. Qed.

Lemma underflow_returns_nan :
  b64.to_euler_run 1e-200 1e-200 0 0 = (nan_euler, []).
Proof. unfold b64.to_euler_run. rewrite normalised_underflow. reflexivity. Qed.

Lemma atan2_0_1 : atan2 (2 * (0 * 0 + 0 * 0)) (1 - 2 * (0 * 0 + 0 * 0)) = 0.
Proof.
replace (2 * (0 * 0 + 0 * 0)) with 0 by ring.
replace (1 - 0) with 1 by ring.
unfold atan2. destruct (Rlt_dec 0 1); [| lra].
replace (0 / 1) with 0 by lra. apply atan_0.
Qed.

Lemma overflow_returns_zero_angles :
  b64.to_euler_run 1e200 1e200 0 0 = (finE 0 0 0, []).
Proof.
unfold b64.to_euler_run. rewrite normalised_overflow. cbn [qw qx qy qz].
cbn [np.mul np.sub np.add np.neg].
rewrite angles_from_t0_fin. cbv zeta.
replace (2 * (0 * 0 + - (0 * 0))) with 0 by ring.
rewrite Rclip_id, Rabs_R0 by lra.
destruct (Rlt_dec _ _); [lra |].
now rewrite atan2_0_1, asin_0.
Qed.

(** The same quaternion before the scaling, [1, 1, 0, 0], is a quarter
    turn of roll. *)
Lemma quarter_roll :
  quaternion_to_euler (finQ 1 1 0 0) = finE (PI / 2) 0 0.
Proof.
assert (norm4 1 1 0 0 = sqrt 2) as En by (unfold norm4; f_equal; ring).
assert (0 < sqrt 2) as Hpos by (apply sqrt_lt_R0; lra).
assert (sqrt 2 * sqrt 2 = 2) as Hsq by (apply sqrt_sqrt; lra).
rewrite quaternion_to_euler_fin by (rewrite En; lra).
cbv zeta. rewrite En. unfold angles_of_unit, t0R.
assert (1 / sqrt 2 * (1 / sqrt 2) = 1 / 2) as Eh.
{ replace (1 / sqrt 2 * (1 / sqrt 2)) with (1 / (sqrt 2 * sqrt 2))
    by (field; lra).
  now rewrite Hsq. }
replace (2 * (1 / sqrt 2 * (0 / sqrt 2) - 0 / sqrt 2 * (1 / sqrt 2)))
  with 0 by (field; lra).
rewrite Rclip_id, Rabs_R0 by lra.
destruct (Rlt_dec _ _); [lra |].
replace (2 * (1 / sqrt 2 * (1 / sqrt 2) + 0 / sqrt 2 * (0 / sqrt 2)))
  with 1 by (rewrite Eh; field; lra).
replace (1 - 2 * (1 / sqrt 2 * (1 / sqrt 2) + 0 / sqrt 2 * (0 / sqrt 2)))
  with 0 by (rewrite Eh; field; lra).
replace (2 * (1 / sqrt 2 * (0 / sqrt 2) + 1 / sqrt 2 * (0 / sqrt 2)))
  with 0 by (field; lra).
replace (1 - 2 * (0 / sqrt 2 * (0 / sqrt 2) + 0 / sqrt 2 * (0 / sqrt 2)))
  with 1 by (field; lra).
rewrite asin_0. unfold finE. f_equal; apply f_equal.
- unfold atan2. case_dec; lra.
- unfold atan2. destruct (Rlt_dec 0 1); [| lra].
  replace (0 / 1) with 0 by lra. apply atan_0.
Qed.

End FromT0.

(** ** Round trip through both methods *)

Section RoundTrip.

Lemma norm4_unit (w x y z : R) :
  w * w + x * x + y * y + z * z = 1 -> norm4 w x y z = 1.
Proof. intros H. unfold norm4. rewrite H. apply sqrt_1. Qed.

Lemma quaternion_to_euler_unit (w x y z : R) :
  norm4 w x y z = 1 ->
  quaternion_to_euler (finQ w x y z) = angles_of_unit w x y z.
Proof.
intros H. rewrite quaternion_to_euler_fin by lra.
rewrite H, !Rdiv_1_r. reflexivity.
Qed.

Lemma clamped_t0_fin (w x y z : R) :
  norm4 w x y z <> 0 ->
  let n := norm4 w x y z in
  clamped_t0 (finQ w x y z) = Fin (t0R (w / n) (x / n) (y / n) (z / n)).
Proof.
intros Hn n. unfold clamped_t0.
rewrite linalg_norm_fin. fold n.
unfold array_div, finQ. cbn [qw qx qy qz].
rewrite !div_fin by assumption. reflexivity.
Qed.

Lemma singular_fin (w x y z : R) :
  norm4 w x y z <> 0 ->
  let n := norm4 w x y z in
  singular (finQ w x y z)
  = if Rlt_dec (1 - 1e-6) (Rabs (t0R (w / n) (x / n) (y / n) (z / n)))
    then true else false.
Proof.
intros Hn n. unfold singular. rewrite clamped_t0_fin by assumption.
reflexivity.
Qed.

Lemma zyx_t0R (r p y : R) :
  t0R (zyx_w r p y) (zyx_x r p y) (zyx_y r p y) (zyx_z r p y) = sin p.
Proof.
unfold t0R. rewrite zyx_t0. apply Rclip_id.
pose proof (SIN_bound p). lra.
Qed.

(** What the round trip returns, in both branches. *)
Lemma roundtrip_fin (r p y : R) :
  quaternion_to_euler (euler_to_quaternion (finE r p y))
  = if Rlt_dec (1 - 1e-6) (Rabs (sin p)) then
      finE 0 (PI / 2 * Rsign (sin p)) (2 * atan2 (zyx_x r p y) (zyx_w r p y))
    else
      finE (atan2 (cos p * sin r) (cos p * cos r))
           (asin (sin p))
           (atan2 (cos p * sin y) (cos p * cos y)).
Proof.
rewrite euler_to_quaternion_fin, quaternion_to_euler_unit by apply zyx_norm.
unfold angles_of_unit. rewrite zyx_t0R.
now rewrite zyx_roll_sin, zyx_roll_cos, zyx_yaw_sin, zyx_yaw_cos.
Qed.

Lemma cos_pos_of_sin_lt_1 (p : R) :
  - (PI / 2) <= p <= PI / 2 -> Rabs (sin p) < 1 -> 0 < cos p.
Proof.
intros [Hlo Hhi] Hs.
destruct (Req_dec p (PI / 2)) as [-> | H1].
{ rewrite sin_PI2, Rabs_R1 in Hs. lra. }
destruct (Req_dec p (- (PI / 2))) as [-> | H2].
{ rewrite sin_neg, sin_PI2, Rabs_Ropp, Rabs_R1 in Hs. lra. }
apply cos_gt_0; lra.
Qed.


Lemma sin_cubic_lower (t : R) : 0 <= t <= 1 -> t - t * t * t / 6 <= sin t.
Proof.
intros [H0 H1]. pose proof PI2_1 as Hpi.
destruct (SIN t) as [Hlb _]; [lra | lra |].
unfold sin_lb, sin_approx, sin_term in Hlb. cbn in Hlb.
assert (0 <= t * t * t * t * t) by (repeat apply Rmult_le_pos; lra).
assert (t * t <= 1) by nra.
nra.
Qed.

(** A margin of 1.5e-3 around the poles is enough for the regular branch
    (the exact threshold is pi/2 - arcsin (1 - 1e-6), about 1.4142e-3). *)
Lemma regular_margin (p : R) :
  - (PI / 2) + 0.0015 <= p <= PI / 2 - 0.0015 -> Rabs (sin p) <= 1 - 1e-6.
Proof.
intros [Hlo Hhi]. pose proof PI2_1 as Hpi.
assert (cos 0.0015 <= 1 - 1e-6) as Hc.
{ replace 0.0015 with (2 * 0.00075) by lra. rewrite cos_2a_sin.
  assert (0.00075 - 0.00075 * 0.00075 * 0.00075 / 6 <= sin 0.00075)
    by (apply sin_cubic_lower; lra).
  nra. }
assert (sin p <= cos 0.0015).
{ rewrite <- sin_shift. apply sin_incr_1; lra. }
assert (- cos 0.0015 <= sin p).
{ rewrite <- sin_shift, <- sin_neg. apply sin_incr_1; lra. }
apply Rabs_le. lra.
Qed.

(** In the regular branch, with roll and yaw already in the range of
    arctan2, the round trip is the identity. *)
Lemma roundtrip_exact (r p y : R) :
  - PI < r <= PI -> - PI < y <= PI ->
  - (PI / 2) <= p <= PI / 2 -> Rabs (sin p) <= 1 - 1e-6 ->
  quaternion_to_euler (euler_to_quaternion (finE r p y)) = finE r p y.
Proof.
intros Hr Hy Hp Hs. rewrite roundtrip_fin.
destruct (Rlt_dec _ _) as [Hn | _]; [lra |].
assert (0 < cos p) as Hc by (apply cos_pos_of_sin_lt_1; lra).
now rewrite !atan2_polar, asin_sin.
Qed.

Lemma close_euler_refl (tol r p y : R) :
  0 <= tol -> close_euler tol (finE r p y) (finE r p y).
Proof.
intros Ht. unfold close_euler, close_float, finE; cbn [roll pitch yaw].
rewrite !Rminus_diag, Rabs_R0. auto.
Qed.

End RoundTrip.

(** ** Claims about [euler_to_quaternion] *)

(** C10.  The zero Euler triple is sent to exactly the identity quaternion
    (w, x, y, z) = (1, 0, 0, 0). *)
Theorem euler_to_quaternion_identity :
  euler_to_quaternion (mkEulerAngles (Fin 0) (Fin 0) (Fin 0))
  = mkQuaternion (Fin 1) (Fin 0) (Fin 0) (Fin 0).
Proof.
change (euler_to_quaternion (finE 0 0 0) = finQ 1 0 0 0).
rewrite euler_to_quaternion_fin.
unfold zyx_w, zyx_x, zyx_y, zyx_z.
rewrite Rmult_0_l, cos_0, sin_0. unfold finQ. repeat f_equal; ring.
Qed.

Lemma half_turn_cos (a : R) : cos ((a + 2 * PI) * 0.5) = - cos (a * 0.5).
Proof. rewrite <- neg_cos. f_equal. lra. Qed.

Lemma half_turn_sin (a : R) : sin ((a + 2 * PI) * 0.5) = - sin (a * 0.5).
Proof. rewrite <- neg_sin. f_equal. lra. Qed.

(** ** A whole turn added to an angle *)

Section WholeTurn.

Lemma Rabs_sin_le (t : R) : Rabs (sin t) <= Rabs t.
Proof.
assert (forall u, 0 <= u -> Rabs (sin u) <= u) as Hpos.
{ intros u Hu. pose proof (SIN_bound u) as Hb.
  destruct (Rle_lt_dec u 1) as [H1 | H1].
  - destruct Hu as [Hu | <-]; [| rewrite sin_0, Rabs_R0; lra].
    pose proof PI2_1.
    assert (0 < sin u) by (apply sin_gt_0; lra).
    assert (sin u < u) by now apply sin_lt_x.
    rewrite Rabs_pos_eq; lra.
  - apply Rabs_le. lra. }
destruct (Rle_lt_dec 0 t) as [Ht | Ht].
- rewrite (Rabs_pos_eq t) by assumption. now apply Hpos.
- rewrite (Rabs_left t) by assumption.
  rewrite <- Rabs_Ropp, <- sin_neg. apply Hpos. lra.
Qed.

Lemma Rabs_sin_1 (t : R) : Rabs (sin t) <= 1.
Proof. apply Rabs_le. pose proof (SIN_bound t). lra. Qed.

Lemma Rabs_cos_1 (t : R) : Rabs (cos t) <= 1.
Proof. apply Rabs_le. pose proof (COS_bound t). lra. Qed.

(** Half a turn away the cosine and the sine are opposite, up to the
    distance to that half turn. *)
Lemma cos_half_turn_near (a b : R) :
  Rabs (cos b + cos a) <= Rabs (b - (a + PI)).
Proof.
replace (cos b + cos a) with (cos b - cos (a + PI)) by (rewrite neg_cos; ring).
rewrite form2, !Rabs_mult.
replace (Rabs (-2)) with 2 by (rewrite Rabs_left; lra).
pose proof (Rabs_sin_le ((b - (a + PI)) / 2)) as H1.
pose proof (Rabs_sin_1 ((b + (a + PI)) / 2)) as H2.
pose proof (Rabs_pos (sin ((b - (a + PI)) / 2))) as H3.
pose proof (Rabs_pos (sin ((b + (a + PI)) / 2))) as H4.
replace (Rabs ((b - (a + PI)) / 2)) with (Rabs (b - (a + PI)) / 2) in H1.
- nra.
- unfold Rdiv. rewrite Rabs_mult. f_equal. rewrite Rabs_pos_eq; lra.
Qed.

Lemma sin_half_turn_near (a b : R) :
  Rabs (sin b + sin a) <= Rabs (b - (a + PI)).
Proof.
replace (sin b + sin a) with (sin b - sin (a + PI)) by (rewrite neg_sin; ring).
rewrite form4, !Rabs_mult.
replace (Rabs 2) with 2 by (rewrite Rabs_pos_eq; lra).
pose proof (Rabs_sin_le ((b - (a + PI)) / 2)) as H1.
pose proof (Rabs_cos_1 ((b + (a + PI)) / 2)) as H2.
pose proof (Rabs_pos (sin ((b - (a + PI)) / 2))) as H3.
pose proof (Rabs_pos (cos ((b + (a + PI)) / 2))) as H4.
replace (Rabs ((b - (a + PI)) / 2)) with (Rabs (b - (a + PI)) / 2) in H1.
- nra.
- unfold Rdiv. rewrite Rabs_mult. f_equal. rewrite Rabs_pos_eq; lra.
Qed.

(** A component is linear in the cosine and the sine of the half angle
    that moves, with coefficients of modulus at most 1. *)
Lemma component_near (A B a b d : R) :
  Rabs A <= 1 -> Rabs B <= 1 -> 2 * Rabs (b - (a + PI)) <= d ->
  Rabs ((cos b * A + sin b * B) - - (cos a * A + sin a * B)) <= d.
Proof.
intros HA HB Hd.
replace ((cos b * A + sin b * B) - - (cos a * A + sin a * B))
  with ((cos b + cos a) * A + (sin b + sin a) * B) by ring.
eapply Rle_trans; [apply Rabs_triang |]. rewrite !Rabs_mult.
pose proof (cos_half_turn_near a b) as Hc.
pose proof (sin_half_turn_near a b) as Hs.
pose proof (Rabs_pos (cos b + cos a)). pose proof (Rabs_pos (sin b + sin a)).
pose proof (Rabs_pos A). pose proof (Rabs_pos B).
nra.
Qed.

Lemma Rabs_prod_1 (u v : R) : Rabs u <= 1 -> Rabs v <= 1 -> Rabs (u * v) <= 1.
Proof.
intros Hu Hv. rewrite Rabs_mult.
pose proof (Rabs_pos u). pose proof (Rabs_pos v). nra.
Qed.

Lemma half_gap (s r : R) :
  2 * Rabs (s * 0.5 - (r * 0.5 + PI)) <= Rabs (s - (r + 2 * PI)).
Proof.
replace (s * 0.5 - (r * 0.5 + PI)) with ((s - (r + 2 * PI)) * 0.5) by lra.
rewrite Rabs_mult, (Rabs_pos_eq 0.5) by lra. lra.
Qed.

End WholeTurn.

Ltac trig_bounds :=
  rewrite ?Rabs_Ropp;
  repeat apply Rabs_prod_1; try apply Rabs_sin_1; try apply Rabs_cos_1.

Ltac near b a A B :=
  match goal with
  | |- Rabs ?e <= _ =>
      replace e with ((cos b * A + sin b * B) - - (cos a * A + sin a * B))
        by ring
  end;
  apply component_near; [trig_bounds | trig_bounds | apply half_gap].

(** In exact arithmetic a whole turn added to one angle negates the
    quaternion. *)
Lemma double_cover_exact (r p y : R) :
  euler_to_quaternion (finE (r + 2 * PI) p y)
  = array_neg (euler_to_quaternion (finE r p y)).
Proof.
rewrite !euler_to_quaternion_fin.
unfold array_neg, finQ, zyx_w, zyx_x, zyx_y, zyx_z. cbn [qw qx qy qz np.neg].
rewrite !half_turn_cos, !half_turn_sin.
f_equal; apply f_equal; ring.
Qed.

Lemma unit_not_self_opposite (r p y : R) :
  euler_to_quaternion (finE r p y)
  <> array_neg (euler_to_quaternion (finE r p y)).
Proof.
rewrite euler_to_quaternion_fin. unfold array_neg, finQ. cbn [qw qx qy qz np.neg].
intros E. injection E as Ew Ex Ey Ez.
pose proof (zyx_norm r p y) as Hn. unfold norm4 in Hn.
replace (zyx_w r p y) with 0 in Hn by lra.
replace (zyx_x r p y) with 0 in Hn by lra.
replace (zyx_y r p y) with 0 in Hn by lra.
replace (zyx_z r p y) with 0 in Hn by lra.
replace (0 * 0 + 0 * 0 + 0 * 0 + 0 * 0) with 0 in Hn by ring.
rewrite sqrt_0 in Hn. lra.
Qed.

(** C9, as stated, fails in binary64: the sum 1e17 + 2*np.pi is 1e17
    again, so [euler_to_quaternion] is given the same triple and returns
    the same quaternion, which is not its own negation. *)
Lemma double_cover_counterexample :
  b64.plus_two_pi 1e17 = 1e17%float
  /\ euler_to_quaternion
       (mkEulerAngles (b64.to_model (b64.plus_two_pi 1e17)) (Fin 0) (Fin 0))
     <> array_neg
          (euler_to_quaternion
             (mkEulerAngles (b64.to_model 1e17) (Fin 0) (Fin 0))).
Proof.
split; [reflexivity |].
change (b64.plus_two_pi 1e17) with 1e17%float.
change (b64.to_model 1e17)
  with (Fin (1 * IZR (Zpos 6250000000000000) * IZR (Z.pow_pos 2 4))).
apply (unit_not_self_opposite _ 0 0).
Qed.

(** C9, amended.  Let s be the angle passed in place of roll + 2*pi (the
    rounded sum, in the program).  Every component of the quaternion of
    (s, pitch, yaw) is within |s - (roll + 2*pi)| of the opposite of the
    same component of the quaternion of (roll, pitch, yaw); likewise for
    the pitch and for the yaw.  The negation is exact when s is exactly
    roll + 2*pi. *)
Theorem double_cover_within (r p y s : R) :
  let q := euler_to_quaternion (mkEulerAngles (Fin r) (Fin p) (Fin y)) in
  close_quaternion (Rabs (s - (r + 2 * PI)))
    (euler_to_quaternion (mkEulerAngles (Fin s) (Fin p) (Fin y)))
    (array_neg q)
  /\ close_quaternion (Rabs (s - (p + 2 * PI)))
       (euler_to_quaternion (mkEulerAngles (Fin r) (Fin s) (Fin y)))
       (array_neg q)
  /\ close_quaternion (Rabs (s - (y + 2 * PI)))
       (euler_to_quaternion (mkEulerAngles (Fin r) (Fin p) (Fin s)))
       (array_neg q).
Proof.
intros q. subst q.
change (mkEulerAngles (Fin ?a) (Fin ?b) (Fin ?c)) with (finE a b c).
rewrite !euler_to_quaternion_fin.
unfold close_quaternion, array_neg, finQ, close_float.
cbn [qw qx qy qz np.neg].
unfold zyx_w, zyx_x, zyx_y, zyx_z.
set (cr := cos (r * 0.5)). set (sr := sin (r * 0.5)).
set (cp := cos (p * 0.5)). set (sp := sin (p * 0.5)).
set (cy := cos (y * 0.5)). set (sy := sin (y * 0.5)).
repeat split.
- subst cr sr. near (s * 0.5) (r * 0.5) (cp * cy) (sp * sy).
- subst cr sr. near (s * 0.5) (r * 0.5) (- (sp * sy)) (cp * cy).
- subst cr sr. near (s * 0.5) (r * 0.5) (sp * cy) (cp * sy).
- subst cr sr. near (s * 0.5) (r * 0.5) (cp * sy) (- (sp * cy)).
- subst cp sp. near (s * 0.5) (p * 0.5) (cr * cy) (sr * sy).
- subst cp sp. near (s * 0.5) (p * 0.5) (sr * cy) (- (cr * sy)).
- subst cp sp. near (s * 0.5) (p * 0.5) (sr * sy) (cr * cy).
- subst cp sp. near (s * 0.5) (p * 0.5) (cr * sy) (- (sr * cy)).
- subst cy sy. near (s * 0.5) (y * 0.5) (cr * cp) (sr * sp).
- subst cy sy. near (s * 0.5) (y * 0.5) (sr * cp) (- (cr * sp)).
- subst cy sy. near (s * 0.5) (y * 0.5) (cr * sp) (sr * cp).
- subst cy sy. near (s * 0.5) (y * 0.5) (- (sr * sp)) (cr * cp).
Qed.

(** C6.  For every finite Euler triple the returned quaternion is finite
    (no nan, no infinity: nothing went wrong on the way) and its Euclidean
    norm is 1, hence within 1e-9 of 1. *)
Theorem euler_to_quaternion_unit_norm (r p y : R) :
  let q := euler_to_quaternion (mkEulerAngles (Fin r) (Fin p) (Fin y)) in
  finite_quaternion q
  /\ linalg_norm q = Fin 1
  /\ close_float 1e-9 (linalg_norm q) (Fin 1).
Proof.
intros q. subst q. change (mkEulerAngles (Fin r) (Fin p) (Fin y)) with (finE r p y).
rewrite euler_to_quaternion_fin, linalg_norm_fin, zyx_norm.
repeat split. cbn. rewrite Rminus_diag, Rabs_R0. lra.
Qed.

(** ** Claims about the round trip *)

(** C8.  Gimbal-lock fixed points at both poles: from (0, pi/2, 0) the
    round trip returns pitch pi/2 (so within 1e-5 of it) and roll exactly
    0; from (0, -pi/2, 0) it returns pitch -pi/2 and roll 0, the sign of
    the clamped t0 being -1. *)
Theorem gimbal_lock_poles :
  let north :=
    euler_to_quaternion (mkEulerAngles (Fin 0) (np.pi / Fin 2)%np (Fin 0)) in
  let south :=
    euler_to_quaternion
      (mkEulerAngles (Fin 0) (np.neg np.pi / Fin 2)%np (Fin 0)) in
  (close_float 1e-5 (pitch (quaternion_to_euler north)) (np.pi / Fin 2)%np
   /\ pitch (quaternion_to_euler north) = (np.pi / Fin 2)%np
   /\ roll (quaternion_to_euler north) = Fin 0)
  /\ (pitch (quaternion_to_euler south) = (np.neg np.pi / Fin 2)%np
      /\ np.sign (clamped_t0 south) = Fin (-1)
      /\ roll (quaternion_to_euler south) = Fin 0).
Proof.
intros north south. subst north south.
unfold np.pi. cbn [np.neg]. rewrite !div_fin by lra.
change (mkEulerAngles (Fin 0) (Fin ?p) (Fin 0)) with (finE 0 p 0).
rewrite !roundtrip_fin.
rewrite !euler_to_quaternion_fin, !clamped_t0_fin
  by (rewrite zyx_norm; lra).
rewrite !zyx_norm, !Rdiv_1_r, !zyx_t0R.
replace (- PI / 2) with (- (PI / 2)) by lra.
rewrite sin_neg, sin_PI2, Rabs_Ropp, Rabs_R1.
destruct (Rlt_dec (1 - 1e-6) 1) as [_ | H]; [| lra].
rewrite Rsign_pos, Rsign_neg by lra.
cbn [roll pitch yaw finE np.sign close_float].
rewrite Rsign_neg by lra.
repeat split; try (f_equal; lra).
rewrite Rmult_1_r, Rminus_diag, Rabs_R0. lra.
Qed.




(** The same in the words of a margin: roll and yaw in (-pi, pi] and pitch
    at least 1.5e-3 away from both poles. *)
Lemma roundtrip_margin (r p y d : R) :
  - PI < r <= PI -> - PI < y <= PI ->
  0.0015 <= d -> - (PI / 2) + d <= p <= PI / 2 - d ->
  close_euler 1e-5
    (quaternion_to_euler (euler_to_quaternion (finE r p y))) (finE r p y).
Proof.
intros Hr Hy Hd Hp.
rewrite roundtrip_exact; try assumption; try lra.
- apply close_euler_refl; lra.
- apply regular_margin; lra.
Qed.

(** ** Claims about [quaternion_to_euler] *)

Section QuaternionToEuler.

Lemma norm4_neq_0 (w x y z : R) :
  (w, x, y, z) <> (0, 0, 0, 0) -> norm4 w x y z <> 0.
Proof. intros H. pose proof (norm4_pos w x y z H). lra. Qed.

Lemma atan_m1 : atan (-1) = - (PI / 4).
Proof. replace (-1) with (- (1)) by lra. now rewrite atan_opp, atan_1. Qed.

(** Two unit quaternions of the gimbal-lock branch, used below. *)
Lemma angles_of_lock_a :
  quaternion_to_euler (finQ (-1/2) (1/2) (-1/2) (-1/2))
  = finE 0 (PI / 2) (3 * PI / 2).
Proof.
rewrite quaternion_to_euler_unit by (apply norm4_unit; lra).
unfold angles_of_unit, t0R.
replace (2 * (-1/2 * (-1/2) - -1/2 * (1/2))) with 1 by lra.
rewrite Rclip_id, Rabs_R1, Rsign_pos by lra.
destruct (Rlt_dec _ _) as [_ | H]; [| lra].
unfold finE. f_equal; f_equal; [lra |].
unfold atan2. case_dec; try lra.
replace (1 / 2 / (-1 / 2)) with (-1) by lra. rewrite atan_m1. lra.
Qed.



End QuaternionToEuler.

Section Ranges.

Lemma singular_regular_fin (w x y z : R) :
  norm4 w x y z <> 0 ->
  let n := norm4 w x y z in
  singular (finQ w x y z) = false ->
  ~ 1 - 1e-6 < Rabs (t0R (w / n) (x / n) (y / n) (z / n)).
Proof.
intros Hn n. rewrite singular_fin by assumption. fold n.
destruct (Rlt_dec _ _); [discriminate | auto].
Qed.

Lemma singular_lock_fin (w x y z : R) :
  norm4 w x y z <> 0 ->
  let n := norm4 w x y z in
  singular (finQ w x y z) = true ->
  1 - 1e-6 < Rabs (t0R (w / n) (x / n) (y / n) (z / n)).
Proof.
intros Hn n. rewrite singular_fin by assumption. fold n.
destruct (Rlt_dec _ _); [auto | discriminate].
Qed.

Lemma pitch_lock_range (t : R) : - (PI / 2) <= PI / 2 * Rsign t <= PI / 2.
Proof.
pose proof PI_RGT_0.
destruct (Rsign_cases t) as [-> | [-> | ->]]; lra.
Qed.

End Ranges.

(** C2, as stated, fails: in the gimbal-lock branch yaw is twice an
    arctangent, and the unit quaternion (-1/2, 1/2, -1/2, -1/2) gets
    yaw 3*pi/2, outside (-pi, pi]. *)
Lemma output_range_counterexample :
  (-1/2, 1/2, -1/2, -1/2) <> (0, 0, 0, 0)
  /\ yaw (quaternion_to_euler (finQ (-1/2) (1/2) (-1/2) (-1/2)))
     = Fin (3 * PI / 2)
  /\ ~ (- PI < 3 * PI / 2 <= PI).
Proof.
pose proof PI_RGT_0.
rewrite angles_of_lock_a. repeat split.
- intros E. injection E as E. lra.
- lra.
Qed.

Lemma identity_in_range : 1e-100 <= norm4 1 0 0 0 <= 1e100.
Proof. rewrite (norm4_unit 1 0 0 0) by lra. lra. Qed.

(** C2, amended.  For every finite quaternion whose norm lies between
    1e-100 and 1e100 the result is finite, pitch lies in [-pi/2, pi/2] and
    roll in (-pi, pi]; yaw lies in (-pi, pi] in the regular branch, and in
    the gimbal-lock branch roll is exactly 0 and yaw lies in
    (-2*pi, 2*pi]. *)
Theorem quaternion_to_euler_ranges (w x y z : R) :
  1e-100 <= norm4 w x y z <= 1e100 ->
  let q := mkQuaternion (Fin w) (Fin x) (Fin y) (Fin z) in
  exists r p yw : R,
    quaternion_to_euler q = mkEulerAngles (Fin r) (Fin p) (Fin yw)
    /\ - (PI / 2) <= p <= PI / 2
    /\ - PI < r <= PI
    /\ (singular q = false -> - PI < yw <= PI)
    /\ (singular q = true -> r = 0 /\ - (2 * PI) < yw <= 2 * PI).
Proof.
intros Hrange q. subst q.
change (mkQuaternion (Fin w) (Fin x) (Fin y) (Fin z)) with (finQ w x y z).
assert (norm4 w x y z <> 0) as Hn by lra.
pose proof PI_RGT_0 as Hpi.
rewrite quaternion_to_euler_fin by assumption.
pose proof (singular_regular_fin w x y z Hn) as Hreg.
pose proof (singular_lock_fin w x y z Hn) as Hlock.
cbv zeta in Hreg, Hlock.
set (n := norm4 w x y z) in *.
unfold angles_of_unit.
destruct (Rlt_dec _ _) as [Hs | Hs]; eexists _, _, _;
  (split; [reflexivity |]).
- split; [apply pitch_lock_range |].
  split; [lra |].
  split; [intros Hf; elim (Hreg Hf); exact Hs |].
  intros _. split; [reflexivity |].
  pose proof (atan2_range (x / n) (w / n)). lra.
- split; [apply asin_bound |].
  split; [apply atan2_range |].
  split; [intros _; apply atan2_range |].
  intros Ht. elim Hs. exact (Hlock Ht).
Qed.

Lemma quaternion_to_euler_ranges_witness :
  1e-100 <= norm4 1 0 0 0 <= 1e100
  /\ exists r p yw : R,
       quaternion_to_euler (mkQuaternion (Fin 1) (Fin 0) (Fin 0) (Fin 0))
       = mkEulerAngles (Fin r) (Fin p) (Fin yw)
       /\ - (PI / 2) <= p <= PI / 2
       /\ - PI < r <= PI.
Proof.
split; [exact identity_in_range |].
destruct (quaternion_to_euler_ranges 1 0 0 0 identity_in_range)
  as (r & p & yw & E & Hp & Hr & _).
exists r, p, yw. auto.
Defined.

(** C3, as stated, fails: on (0, 0, 0, 0) the method returns, and what it
    returns contains nan. *)
Lemma zero_quaternion_counterexample :
  has_nan (quaternion_to_euler (mkQuaternion (Fin 0) (Fin 0) (Fin 0) (Fin 0))).
Proof.
change (has_nan (quaternion_to_euler (finQ 0 0 0 0))).
unfold quaternion_to_euler. rewrite quaternion_to_euler_run_zero.
left. exact I.
Qed.

(** C3, amended.  On (0, 0, 0, 0) nothing is raised: the norm is 0, the
    normalisation 0/0 yields nan in every component, the gimbal-lock test
    is False on nan, and the method returns EulerAngles(nan, nan, nan)
    without printing the warning. *)
Theorem zero_quaternion_returns_nan :
  let q := mkQuaternion (Fin 0) (Fin 0) (Fin 0) (Fin 0) in
  linalg_norm q = Fin 0
  /\ array_div q (linalg_norm q) = mkQuaternion NaN NaN NaN NaN
  /\ singular q = false
  /\ quaternion_to_euler_run q = (mkEulerAngles NaN NaN NaN, []).
Proof.
intros q. subst q.
change (mkQuaternion (Fin 0) (Fin 0) (Fin 0) (Fin 0)) with (finQ 0 0 0 0).
split; [now rewrite linalg_norm_fin, norm4_zero |].
split.
{ rewrite linalg_norm_fin, norm4_zero. unfold array_div, finQ.
  cbn [qw qx qy qz]. now rewrite div_zero_zero. }
split; [| apply quaternion_to_euler_run_zero].
unfold singular, clamped_t0. rewrite linalg_norm_fin, norm4_zero.
unfold array_div, finQ. cbn [qw qx qy qz]. now rewrite div_zero_zero.
Qed.

Section Scaling.


Lemma t0R_neg (w x y z : R) : t0R (- w) (- x) (- y) (- z) = t0R w x y z.
Proof. unfold t0R. f_equal. ring. Qed.


Lemma Rclip_above (t : R) : 1 <= t -> Rclip t (-1) 1 = 1.
Proof.
intros H. unfold Rclip. rewrite Rmax_left by lra. apply Rmin_right. exact H.
Qed.

Lemma Rclip_below (t : R) : t <= -1 -> Rclip t (-1) 1 = -1.
Proof.
intros H. unfold Rclip. rewrite Rmax_right by lra. apply Rmin_left. lra.
Qed.

End Scaling.




(** C5.  Gimbal-lock branch: for a finite non-zero quaternion with
    normalised components w, x, y, z and t0 = clip(2*(w*y - z*x), -1, 1),
    if |t0| > 1 - 1e-6 then the result is pitch = (pi/2) * sign(t0),
    roll = 0 and yaw = 2 * atan2(x, w). *)
Theorem singular_branch (w x y z : R) :
  (w, x, y, z) <> (0, 0, 0, 0) ->
  let n := norm4 w x y z in
  let t0 := Rclip (2 * (w / n * (y / n) - z / n * (x / n))) (-1) 1 in
  Rabs t0 > 1 - 1e-6 ->
  let q := mkQuaternion (Fin w) (Fin x) (Fin y) (Fin z) in
  clamped_t0 q = Fin t0
  /\ quaternion_to_euler q
     = mkEulerAngles (Fin 0) (Fin (PI / 2 * Rsign t0))
                     (Fin (2 * atan2 (x / n) (w / n)))
  /\ (Rsign t0 = 1 \/ Rsign t0 = -1).
Proof.
intros Hne n t0 Hs q. subst q.
change (mkQuaternion (Fin w) (Fin x) (Fin y) (Fin z)) with (finQ w x y z).
pose proof (norm4_neq_0 _ _ _ _ Hne) as Hn.
rewrite clamped_t0_fin, quaternion_to_euler_fin by assumption.
fold n. unfold angles_of_unit, t0R. fold t0.
split; [reflexivity |].
split; [destruct (Rlt_dec _ _) as [_ | H]; [reflexivity | lra] |].
destruct (Rlt_dec 0 t0) as [Hpos | Hneg].
- left. now apply Rsign_pos.
- right. apply Rsign_neg.
  destruct (Rtotal_order t0 0) as [Hlt | [Hz | Hgt]]; [exact Hlt | | lra].
  rewrite Hz, Rabs_R0 in Hs. lra.
Qed.

Lemma singular_branch_witness :
  (1/2, 1/2, 1/2, -1/2) <> (0, 0, 0, 0)
  /\ (let n := norm4 (1/2) (1/2) (1/2) (-1/2) in
      let t0 := Rclip (2 * (1/2 / n * (1/2 / n) - -1/2 / n * (1/2 / n))) (-1) 1 in
      Rabs t0 > 1 - 1e-6
      /\ quaternion_to_euler
           (mkQuaternion (Fin (1/2)) (Fin (1/2)) (Fin (1/2)) (Fin (-1/2)))
         = mkEulerAngles (Fin 0) (Fin (PI / 2 * Rsign t0))
                         (Fin (2 * atan2 (1/2 / n) (1/2 / n)))).
Proof.
assert ((1/2, 1/2, 1/2, -1/2) <> (0, 0, 0, 0)) as Hne
  by (intros E; injection E as E; lra).
assert (norm4 (1/2) (1/2) (1/2) (-1/2) = 1) as Hn by (apply norm4_unit; lra).
assert (Rabs (Rclip (2 * (1/2 / norm4 (1/2) (1/2) (1/2) (-1/2)
                           * (1/2 / norm4 (1/2) (1/2) (1/2) (-1/2))
                           - -1/2 / norm4 (1/2) (1/2) (1/2) (-1/2)
                             * (1/2 / norm4 (1/2) (1/2) (1/2) (-1/2))))
                   (-1) 1) > 1 - 1e-6) as Hs.
{ rewrite Hn.
  replace (2 * (1/2 / 1 * (1/2 / 1) - -1/2 / 1 * (1/2 / 1))) with 1 by lra.
  rewrite Rclip_id, Rabs_R1; lra. }
split; [exact Hne |]. intros n t0. split; [exact Hs |].
apply (singular_branch (1/2) (1/2) (1/2) (-1/2) Hne Hs).
Defined.

(** C7, as stated, fails in binary64 on a finite non-zero quaternion: for
    [1e-200, 1e-200, 0, 0] the squares underflow, the norm is 0.0, the
    normalised array is (inf, inf, nan, nan), t0 is nan before and after
    the clamp, the gimbal-lock test is False and arcsin is handed nan:
    the returned pitch is nan. *)
Lemma arcsin_receives_nan_counterexample :
  let u := b64.normalised 1e-200 1e-200 0 0 in
  let t0 := clamp_t0 (Fin 2 * (qw u * qy u - qz u * qx u))%np in
  u = mkQuaternion PInf PInf NaN NaN
  /\ t0 = NaN
  /\ np.gt (np.abs t0) (Fin 1 - SINGULARITY_TOLERANCE)%np = false
  /\ pitch (fst (b64.to_euler_run 1e-200 1e-200 0 0)) = np.arcsin t0
  /\ is_nan (pitch (fst (b64.to_euler_run 1e-200 1e-200 0 0))).
Proof.
intros u t0. subst t0 u. unfold b64.to_euler_run.
rewrite normalised_underflow. cbn. repeat split; reflexivity.
Qed.

(** C7, amended.  Whatever finite value line 63 computed for t0
    (overshoot such as 1.0000001 or -1.0000001 included), line 67 clamps
    it into [-1, 1], to 1 or -1 when it overshoots, arcsin is finite on
    the clamped value where it would be nan on an overshoot, and with
    finite normalised components the returned pitch is finite, being the
    arcsin of the clamped value in the regular branch.  This is the case
    of every finite quaternion whose norm lies between 1e-100 and
    1e100. *)
Theorem arcsin_domain_protected (raw w x y z : R) :
  let t0 := clamp_t0 (Fin raw) in
  let out := angles_from_t0 (Fin raw) (Fin w) (Fin x) (Fin y) (Fin z) in
  (exists t : R,
     t0 = Fin t /\ -1 <= t <= 1
     /\ (1 <= raw -> t = 1) /\ (raw <= -1 -> t = -1)
     /\ np.arcsin t0 = Fin (asin t)
     /\ (np.gt (np.abs t0) (Fin 1 - SINGULARITY_TOLERANCE)%np = false ->
         pitch (fst out) = np.arcsin t0))
  /\ is_finite (pitch (fst out))
  /\ (1 < raw \/ raw < -1 -> np.arcsin (Fin raw) = NaN)
  /\ (1e-100 <= norm4 w x y z <= 1e100 ->
      let n := norm4 w x y z in
      let q := mkQuaternion (Fin w) (Fin x) (Fin y) (Fin z) in
      quaternion_to_euler_run q
      = angles_from_t0 (Fin (2 * (w / n * (y / n) - z / n * (x / n))))
                       (Fin (w / n)) (Fin (x / n)) (Fin (y / n)) (Fin (z / n))
      /\ is_finite (pitch (quaternion_to_euler q))).
Proof.
intros t0 out. subst t0 out.
rewrite clamp_t0_fin, angles_from_t0_fin. cbv zeta.
pose proof (Rclip_bounds raw) as Hb.
split.
{ exists (Rclip raw (-1) 1). split; [reflexivity |]. split; [exact Hb |].
  split; [apply Rclip_above |]. split; [apply Rclip_below |].
  split; [now apply arcsin_fin |].
  cbn [np.abs SINGULARITY_TOLERANCE np.sub np.add np.neg np.gt].
  destruct (Rlt_dec _ _) as [Hs | Hs]; [discriminate |].
  intros _. cbn [fst pitch finE]. symmetry. now apply arcsin_fin. }
split; [destruct (Rlt_dec _ _); exact I |].
split; [apply arcsin_out_of_domain |].
intros Hrange.
change (mkQuaternion (Fin w) (Fin x) (Fin y) (Fin z)) with (finQ w x y z).
set (n := norm4 w x y z) in *.
assert (n <> 0) as Hn by lra.
split.
- unfold quaternion_to_euler_run. rewrite linalg_norm_fin. fold n.
  unfold array_div, finQ. cbn [qw qx qy qz].
  rewrite !div_fin by assumption. reflexivity.
- rewrite quaternion_to_euler_fin by assumption.
  unfold angles_of_unit. destruct (Rlt_dec _ _); exact I.
Qed.

(** * Further properties *)

(** ** Propagation of nan and of the infinities *)

Section Propagation.

Lemma mul_nan_r (a : float64) : np.mul a NaN = NaN.
Proof. now destruct a. Qed.

Lemma add_nan_r (a : float64) : np.add a NaN = NaN.
Proof. now destruct a. Qed.

Lemma sub_nan_r (a : float64) : np.sub a NaN = NaN.
Proof. now destruct a. Qed.

Lemma div_nan_r (a : float64) : np.div a NaN = NaN.
Proof. now destruct a. Qed.

Lemma half_nonfinite (a : float64) :
  ~ is_finite a ->
  np.cos (a * Fin 0.5)%np = NaN /\ np.sin (a * Fin 0.5)%np = NaN.
Proof.
intros Ha. destruct a; cbn in *; [tauto | | | auto];
  unfold np.mul_inf; case_dec; auto.
Qed.

(** Without a finite norm the normalisation leaves a nan behind. *)
Lemma normalised_nonfinite (q : Quaternion) :
  ~ finite_quaternion q ->
  let u := array_div q (linalg_norm q) in
  qw u = NaN \/ qx u = NaN \/ qy u = NaN \/ qz u = NaN.
Proof.
intros Hq. destruct q as [a b c d].
unfold finite_quaternion in Hq.
destruct a, b, c, d; cbn in *; try tauto.
Qed.

(** One nan among the normalised components reaches all three angles,
    and the gimbal-lock test is then False. *)
Lemma run_of_nan (q : Quaternion) :
  let u := array_div q (linalg_norm q) in
  qw u = NaN \/ qx u = NaN \/ qy u = NaN \/ qz u = NaN ->
  quaternion_to_euler_run q = (nan_euler, []).
Proof.
intros u Hu. unfold quaternion_to_euler_run. fold u.
destruct Hu as [E | [E | [E | E]]]; rewrite E; cbn;
  rewrite ?mul_nan_r, ?add_nan_r, ?sub_nan_r; cbn;
  rewrite ?mul_nan_r, ?add_nan_r, ?sub_nan_r; reflexivity.
Qed.

End Propagation.

(** X1.  [euler_to_quaternion] on an angle that is nan or infinite: the
    half-angle cosine and sine are nan and the method returns the all-nan
    quaternion. *)
Theorem euler_to_quaternion_nonfinite (e : EulerAngles) :
  ~ finite_euler e -> euler_to_quaternion e = nan_quaternion.
Proof.
intros He. destruct e as [r p y]. unfold finite_euler in He. cbn in He.
unfold euler_to_quaternion. cbn [roll pitch yaw].
assert (~ is_finite r \/ ~ is_finite p \/ ~ is_finite y) as [H | [H | H]]
  by (destruct r, p, y; cbn in *; tauto);
  destruct (half_nonfinite _ H) as [Ec Es]; rewrite Ec, Es;
  cbn; rewrite ?mul_nan_r, ?add_nan_r, ?sub_nan_r; cbn;
  rewrite ?mul_nan_r, ?add_nan_r, ?sub_nan_r; reflexivity.
Qed.

Lemma euler_to_quaternion_nonfinite_witness :
  ~ finite_euler (mkEulerAngles (Fin 0) PInf (Fin 0))
  /\ euler_to_quaternion (mkEulerAngles (Fin 0) PInf (Fin 0)) = nan_quaternion.
Proof.
assert (~ finite_euler (mkEulerAngles (Fin 0) PInf (Fin 0))) as H
  by (unfold finite_euler; cbn; tauto).
split; [exact H | exact (euler_to_quaternion_nonfinite _ H)].
Defined.

Lemma quaternion_cases (q : Quaternion) :
  (exists w x y z : R, q = finQ w x y z) \/ ~ finite_quaternion q.
Proof.
destruct q as [a b c d]. unfold finite_quaternion.
destruct a, b, c, d; cbn; try tauto.
left. now eexists _, _, _, _.
Qed.

Lemma tuple_zero_dec (w x y z : R) :
  (w, x, y, z) = (0, 0, 0, 0) \/ (w, x, y, z) <> (0, 0, 0, 0).
Proof.
destruct (Req_dec w 0) as [-> | Hw]; [| right; intros E; injection E; tauto].
destruct (Req_dec x 0) as [-> | Hx]; [| right; intros E; injection E; tauto].
destruct (Req_dec y 0) as [-> | Hy]; [| right; intros E; injection E; tauto].
destruct (Req_dec z 0) as [-> | Hz]; [| right; intros E; injection E; tauto].
now left.
Qed.

Lemma angles_of_unit_finite (w x y z : R) :
  finite_euler (angles_of_unit w x y z).
Proof.
unfold angles_of_unit. destruct (Rlt_dec _ _); repeat split.
Qed.

(** X2.  [quaternion_to_euler] returns three finite angles on every
    finite quaternion whose norm lies between 1e-100 and 1e100; on an
    input with a nan or infinite component, and on the zero quaternion,
    it returns EulerAngles(nan, nan, nan) and prints nothing. *)
Theorem quaternion_to_euler_finite_or_nan (q : Quaternion) :
  ((exists w x y z : R,
      q = finQ w x y z /\ 1e-100 <= norm4 w x y z <= 1e100) ->
   finite_euler (quaternion_to_euler q))
  /\ (~ finite_quaternion q \/ q = finQ 0 0 0 0 ->
      quaternion_to_euler_run q = (nan_euler, [])).
Proof.
split.
- intros (w & x & y & z & -> & Hrange).
  rewrite quaternion_to_euler_fin by lra. apply angles_of_unit_finite.
- intros [Hq | ->].
  + exact (run_of_nan q (normalised_nonfinite q Hq)).
  + apply quaternion_to_euler_run_zero.
Qed.




(** ** Axes and composition *)

(** X4.  Axis convention: a pure roll is a rotation about X, a pure pitch
    about Y and a pure yaw about Z, each by the half angle. *)
Theorem euler_to_quaternion_single_axis (a : R) :
  euler_to_quaternion (mkEulerAngles (Fin a) (Fin 0) (Fin 0))
  = mkQuaternion (Fin (cos (a / 2))) (Fin (sin (a / 2))) (Fin 0) (Fin 0)
  /\ euler_to_quaternion (mkEulerAngles (Fin 0) (Fin a) (Fin 0))
     = mkQuaternion (Fin (cos (a / 2))) (Fin 0) (Fin (sin (a / 2))) (Fin 0)
  /\ euler_to_quaternion (mkEulerAngles (Fin 0) (Fin 0) (Fin a))
     = mkQuaternion (Fin (cos (a / 2))) (Fin 0) (Fin 0) (Fin (sin (a / 2))).
Proof.
change (euler_to_quaternion (finE a 0 0)
        = finQ (cos (a / 2)) (sin (a / 2)) 0 0
        /\ euler_to_quaternion (finE 0 a 0)
           = finQ (cos (a / 2)) 0 (sin (a / 2)) 0
        /\ euler_to_quaternion (finE 0 0 a)
           = finQ (cos (a / 2)) 0 0 (sin (a / 2))).
rewrite !euler_to_quaternion_fin.
unfold zyx_w, zyx_x, zyx_y, zyx_z.
replace (a * 0.5) with (a / 2) by lra.
rewrite Rmult_0_l, cos_0, sin_0.
unfold finQ. repeat split; repeat f_equal; ring.
Qed.

(** X5.  The "Z-Y-X sequence": the quaternion of (roll, pitch, yaw) is the
    Hamilton product of the pure yaw, the pure pitch and the pure roll
    quaternions, in that order. *)
Theorem euler_to_quaternion_composition (r p y : R) :
  euler_to_quaternion (mkEulerAngles (Fin r) (Fin p) (Fin y))
  = hamilton
      (hamilton (euler_to_quaternion (mkEulerAngles (Fin 0) (Fin 0) (Fin y)))
                (euler_to_quaternion (mkEulerAngles (Fin 0) (Fin p) (Fin 0))))
      (euler_to_quaternion (mkEulerAngles (Fin r) (Fin 0) (Fin 0))).
Proof.
change (mkEulerAngles (Fin ?a) (Fin ?b) (Fin ?c)) with (finE a b c).
rewrite !euler_to_quaternion_fin.
unfold zyx_w, zyx_x, zyx_y, zyx_z, hamilton, finQ.
cbn [qw qx qy qz np.mul np.add np.sub np.neg].
rewrite Rmult_0_l, cos_0, sin_0.
f_equal; apply f_equal; ring.
Qed.

(** ** The gimbal-lock branch, seen from the caller *)

Lemma inv_sqrt2_pos : 0 < 1 / sqrt 2.
Proof.
assert (0 < sqrt 2) by (apply sqrt_lt_R0; lra).
apply Rdiv_lt_0_compat; lra.
Qed.

Lemma quarter_turn : PI / 2 * 0.5 = PI / 4.
Proof. lra. Qed.

Lemma quarter_turn_neg : - (PI / 2) * 0.5 = - (PI / 4).
Proof. lra. Qed.

(** X6.  Round trip at the poles.  From (roll, pi/2, yaw) the method
    returns (0, pi/2, roll - yaw); from (roll, -pi/2, yaw) it returns
    (0, -pi/2, roll + yaw): the returned yaw is the input yaw at the south
    pole and its opposite at the north pole (roll 0). *)
Theorem roundtrip_at_poles (r y : R) :
  - (2 * PI) < r - y <= 2 * PI -> - (2 * PI) < r + y <= 2 * PI ->
  quaternion_to_euler
    (euler_to_quaternion (mkEulerAngles (Fin r) (Fin (PI / 2)) (Fin y)))
  = mkEulerAngles (Fin 0) (Fin (PI / 2)) (Fin (r - y))
  /\ quaternion_to_euler
       (euler_to_quaternion (mkEulerAngles (Fin r) (Fin (- (PI / 2))) (Fin y)))
     = mkEulerAngles (Fin 0) (Fin (- (PI / 2))) (Fin (r + y)).
Proof.
intros Hm Hp.
change (mkEulerAngles (Fin r) (Fin ?b) (Fin y)) with (finE r b y).
pose proof inv_sqrt2_pos as Hc.
split; rewrite roundtrip_fin.
- rewrite sin_PI2, Rabs_R1.
  destruct (Rlt_dec _ _) as [_ | H]; [| lra].
  rewrite Rsign_pos by lra.
  unfold zyx_x, zyx_w. rewrite quarter_turn, cos_PI4, sin_PI4.
  replace (sin (r * 0.5) * (1 / sqrt 2) * cos (y * 0.5)
           - cos (r * 0.5) * (1 / sqrt 2) * sin (y * 0.5))
    with (1 / sqrt 2 * sin (r * 0.5 - y * 0.5)) by (rewrite sin_minus; ring).
  replace (cos (r * 0.5) * (1 / sqrt 2) * cos (y * 0.5)
           + sin (r * 0.5) * (1 / sqrt 2) * sin (y * 0.5))
    with (1 / sqrt 2 * cos (r * 0.5 - y * 0.5)) by (rewrite cos_minus; ring).
  rewrite atan2_polar by lra.
  unfold finE. f_equal; apply f_equal; lra.
- rewrite sin_neg, sin_PI2, Rabs_Ropp, Rabs_R1.
  destruct (Rlt_dec _ _) as [_ | H]; [| lra].
  rewrite Rsign_neg by lra.
  unfold zyx_x, zyx_w.
  rewrite quarter_turn_neg, cos_neg, sin_neg, cos_PI4, sin_PI4.
  replace (sin (r * 0.5) * (1 / sqrt 2) * cos (y * 0.5)
           - cos (r * 0.5) * - (1 / sqrt 2) * sin (y * 0.5))
    with (1 / sqrt 2 * sin (r * 0.5 + y * 0.5)) by (rewrite sin_plus; ring).
  replace (cos (r * 0.5) * (1 / sqrt 2) * cos (y * 0.5)
           + sin (r * 0.5) * - (1 / sqrt 2) * sin (y * 0.5))
    with (1 / sqrt 2 * cos (r * 0.5 + y * 0.5)) by (rewrite cos_plus; ring).
  rewrite atan2_polar by lra.
  unfold finE. f_equal; apply f_equal; lra.
Qed.

Lemma roundtrip_at_poles_witness :
  (- (2 * PI) < 0 - 1 <= 2 * PI) /\ (- (2 * PI) < 0 + 1 <= 2 * PI)
  /\ quaternion_to_euler
       (euler_to_quaternion (mkEulerAngles (Fin 0) (Fin (PI / 2)) (Fin 1)))
     = mkEulerAngles (Fin 0) (Fin (PI / 2)) (Fin (0 - 1))
  /\ quaternion_to_euler
       (euler_to_quaternion (mkEulerAngles (Fin 0) (Fin (- (PI / 2))) (Fin 1)))
     = mkEulerAngles (Fin 0) (Fin (- (PI / 2))) (Fin (0 + 1)).
Proof.
pose proof PI2_1 as Hpi.
assert (- (2 * PI) < 0 - 1 <= 2 * PI) as Hm by lra.
assert (- (2 * PI) < 0 + 1 <= 2 * PI) as Hp by lra.
split; [exact Hm |]. split; [exact Hp |].
exact (roundtrip_at_poles 0 1 Hm Hp).
Defined.

Lemma degrees_quarter (s : R) : PI / 2 * s * (180 / PI) = 90 * s.
Proof. field. apply PI_neq0. Qed.

(** X7.  The pitch snaps to the poles.  For a finite quaternion whose
    norm lies between 1e-100 and 1e100, either the warning is printed,
    the returned pitch is exactly pi/2 or -pi/2 and the warning reports
    exactly 90 or -90 degrees; or nothing is printed and the returned
    pitch p satisfies |sin p| <= 1 - 1e-6.  No pitch strictly between the
    threshold and a pole is returned. *)
Theorem pitch_snaps_to_pole (w x y z : R) :
  1e-100 <= norm4 w x y z <= 1e100 ->
  let q := mkQuaternion (Fin w) (Fin x) (Fin y) (Fin z) in
  (singular q = true
   /\ ((pitch (quaternion_to_euler q) = Fin (PI / 2)
        /\ snd (quaternion_to_euler_run q) = [WarnGimbalLock (Fin 90)])
       \/ (pitch (quaternion_to_euler q) = Fin (- (PI / 2))
           /\ snd (quaternion_to_euler_run q) = [WarnGimbalLock (Fin (-90))])))
  \/ (singular q = false
      /\ snd (quaternion_to_euler_run q) = []
      /\ exists p : R,
           pitch (quaternion_to_euler q) = Fin p
           /\ Rabs (sin p) <= 1 - 1e-6).
Proof.
intros Hrange q. subst q.
change (mkQuaternion (Fin w) (Fin x) (Fin y) (Fin z)) with (finQ w x y z).
assert (norm4 w x y z <> 0) as Hn by lra.
unfold quaternion_to_euler.
rewrite singular_fin, quaternion_to_euler_run_fin by assumption.
cbv zeta. cbn [fst snd]. unfold angles_of_unit.
set (t := t0R _ _ _ _).
destruct (Rlt_dec _ _) as [Hs | Hs].
- left. split; [reflexivity |]. rewrite degrees_quarter. cbn [pitch finE].
  destruct (Rlt_dec 0 t) as [Hpos | Hneg].
  + left. rewrite Rsign_pos by assumption.
    rewrite !Rmult_1_r. split; reflexivity.
  + right. assert (t < 0) as Hlt.
    { destruct (Rtotal_order t 0) as [? | [Hz | ?]]; [assumption | | lra].
      rewrite Hz, Rabs_R0 in Hs. lra. }
    rewrite Rsign_neg by assumption.
    replace (PI / 2 * -1) with (- (PI / 2)) by lra.
    replace (90 * -1) with (-90) by lra.
    split; reflexivity.
- right. split; [reflexivity |]. split; [reflexivity |].
  exists (asin t). split; [reflexivity |].
  rewrite sin_asin by apply Rclip_bounds. lra.
Qed.

Lemma pitch_snaps_to_pole_witness :
  1e-100 <= norm4 1 0 0 0 <= 1e100
  /\ (singular (mkQuaternion (Fin 1) (Fin 0) (Fin 0) (Fin 0)) = true
      \/ singular (mkQuaternion (Fin 1) (Fin 0) (Fin 0) (Fin 0)) = false).
Proof.
split; [exact identity_in_range |].
destruct (pitch_snaps_to_pole 1 0 0 0 identity_in_range) as [[H _] | [H _]];
  [left | right]; exact H.
Defined.


Lemma identity_is_regular :
  singular (mkQuaternion (Fin 1) (Fin 0) (Fin 0) (Fin 0)) = false.
Proof.
change (singular (finQ 1 0 0 0) = false).
rewrite singular_fin by (rewrite (norm4_unit 1 0 0 0); lra).
cbv zeta. rewrite (norm4_unit 1 0 0 0) by lra.
unfold t0R. replace (2 * (1 / 1 * (0 / 1) - 0 / 1 * (0 / 1))) with 0 by lra.
rewrite Rclip_id, Rabs_R0 by lra.
destruct (Rlt_dec _ _); [lra | reflexivity].
Defined.

(** X9.  The angles returned in the regular branch are canonical: fed
    back through [euler_to_quaternion] and [quaternion_to_euler] they come
    out unchanged. *)
Theorem regular_angles_are_fixed (w x y z : R) :
  (w, x, y, z) <> (0, 0, 0, 0) ->
  let q := mkQuaternion (Fin w) (Fin x) (Fin y) (Fin z) in
  singular q = false ->
  quaternion_to_euler (euler_to_quaternion (quaternion_to_euler q))
  = quaternion_to_euler q.
Proof.
intros Hne q. subst q.
change (mkQuaternion (Fin w) (Fin x) (Fin y) (Fin z)) with (finQ w x y z).
pose proof (norm4_neq_0 _ _ _ _ Hne) as Hn.
intros Hreg. apply (singular_regular_fin w x y z Hn) in Hreg.
rewrite quaternion_to_euler_fin by assumption. cbv zeta.
unfold angles_of_unit.
set (t := t0R _ _ _ _) in *.
destruct (Rlt_dec _ _) as [Hs | _]; [contradiction |].
assert (-1 <= t <= 1) as Hb by apply Rclip_bounds.
apply roundtrip_exact.
- apply atan2_range.
- apply atan2_range.
- apply asin_bound.
- rewrite sin_asin by assumption. lra.
Qed.

Lemma regular_angles_are_fixed_witness :
  (1, 0, 0, 0) <> (0, 0, 0, 0)
  /\ singular (mkQuaternion (Fin 1) (Fin 0) (Fin 0) (Fin 0)) = false
  /\ quaternion_to_euler
       (euler_to_quaternion
          (quaternion_to_euler (mkQuaternion (Fin 1) (Fin 0) (Fin 0) (Fin 0))))
     = quaternion_to_euler (mkQuaternion (Fin 1) (Fin 0) (Fin 0) (Fin 0)).
Proof.
assert ((1, 0, 0, 0) <> (0, 0, 0, 0)) as Hne
  by (intros E; injection E as E; lra).
pose proof identity_is_regular as Hs.
split; [exact Hne |]. split; [exact Hs |].
exact (regular_angles_are_fixed 1 0 0 0 Hne Hs).
Defined.

(** ** Sign of the quaternion, whole turns and degrees *)

Section Turns.

(** The opposite point lies half a turn away. *)
Lemma atan2_opp (y x : R) :
  x <> 0 \/ y <> 0 ->
  atan2 (- y) (- x) = atan2 y x + PI \/ atan2 (- y) (- x) = atan2 y x - PI.
Proof.
intros Hne. unfold atan2.
assert (x <> 0 -> - y / - x = y / x) as Hq by (intros; field; assumption).
destruct (Rlt_dec 0 x) as [Hx | Hx].
- rewrite Hq by lra.
  destruct (Rlt_dec 0 (- x)); [lra |].
  destruct (Rlt_dec (- x) 0); [| lra].
  destruct (Rle_dec 0 (- y)); auto.
- destruct (Rlt_dec x 0) as [Hx' | Hx'].
  + rewrite Hq by lra.
    destruct (Rlt_dec 0 (- x)); [| lra].
    destruct (Rle_dec 0 y); [right | left]; lra.
  + assert (x = 0) as -> by lra.
    destruct (Rlt_dec 0 (- 0)); [lra |].
    destruct (Rlt_dec (- 0) 0); [lra |].
    destruct (Rlt_dec 0 y); destruct (Rlt_dec 0 (- y)); try lra;
      destruct (Rlt_dec y 0); destruct (Rlt_dec (- y) 0); lra.
Qed.

Lemma norm4_opp (w x y z : R) : norm4 (- w) (- x) (- y) (- z) = norm4 w x y z.
Proof. unfold norm4. f_equal. ring. Qed.

Lemma Rclip_zero : Rclip 0 (-1) 1 = 0.
Proof. apply Rclip_id. lra. Qed.

(** Sine and cosine of the angle of a point on the ray of direction
    theta, for any theta. *)
Lemma atan2_polar_sin_cos (c theta : R) :
  0 < c ->
  sin (atan2 (c * sin theta) (c * cos theta)) = sin theta
  /\ cos (atan2 (c * sin theta) (c * cos theta)) = cos theta.
Proof.
intros Hc. rewrite atan2_scale by assumption.
pose proof (sin2_cos2 theta) as Hsc. unfold Rsqr in Hsc.
unfold atan2.
assert (cos theta <> 0 ->
        sqrt (1 + (sin theta / cos theta)²) = / Rabs (cos theta)) as Hsq.
{ intros Hne.
  replace (1 + (sin theta / cos theta)²) with ((/ cos theta)²).
  - rewrite sqrt_Rsqr_abs. now apply Rabs_inv.
  - unfold Rsqr. field_simplify_eq; [nra | assumption]. }
destruct (Rlt_dec 0 (cos theta)) as [Hx | Hx].
- rewrite sin_atan, cos_atan, Hsq, Rabs_pos_eq by lra.
  split; field; lra.
- destruct (Rlt_dec (cos theta) 0) as [Hx' | Hx'].
  + assert (sin (atan (sin theta / cos theta)) = - sin theta
            /\ cos (atan (sin theta / cos theta)) = - cos theta) as [Es Ec].
    { rewrite sin_atan, cos_atan, Hsq, Rabs_left by lra. split; field; lra. }
    destruct (Rle_dec 0 (sin theta)).
    * rewrite neg_sin, neg_cos, Es, Ec. split; ring.
    * unfold Rminus.
      replace (atan (sin theta / cos theta) + - PI)
        with (- (- atan (sin theta / cos theta) + PI)) by ring.
      rewrite sin_neg, cos_neg, neg_sin, neg_cos, sin_neg, cos_neg, Es, Ec.
      split; ring.
  + assert (cos theta = 0) as E0 by lra. rewrite E0 in *.
    destruct (Rlt_dec 0 (sin theta)) as [Hy | Hy].
    * rewrite sin_PI2, cos_PI2. split; [nra | reflexivity].
    * destruct (Rlt_dec (sin theta) 0) as [Hy' | Hy'].
      -- rewrite sin_neg, cos_neg, sin_PI2, cos_PI2. split; [nra | reflexivity].
      -- nra.
Qed.

End Turns.

(** X10.  In the gimbal-lock branch the quaternion and its negation (the
    same rotation) get the same roll 0 and the same pitch, and yaws that
    differ by exactly one whole turn. *)
Theorem negation_in_gimbal_lock (w x y z : R) :
  (w, x, y, z) <> (0, 0, 0, 0) ->
  let q := mkQuaternion (Fin w) (Fin x) (Fin y) (Fin z) in
  singular q = true ->
  exists p yw : R,
    quaternion_to_euler q = mkEulerAngles (Fin 0) (Fin p) (Fin yw)
    /\ (quaternion_to_euler (array_neg q)
        = mkEulerAngles (Fin 0) (Fin p) (Fin (yw + 2 * PI))
        \/ quaternion_to_euler (array_neg q)
           = mkEulerAngles (Fin 0) (Fin p) (Fin (yw - 2 * PI))).
Proof.
intros Hne q. subst q.
change (array_neg (mkQuaternion (Fin w) (Fin x) (Fin y) (Fin z)))
  with (finQ (- w) (- x) (- y) (- z)).
change (mkQuaternion (Fin w) (Fin x) (Fin y) (Fin z)) with (finQ w x y z).
pose proof (norm4_neq_0 _ _ _ _ Hne) as Hn.
intros Hs. apply (singular_lock_fin w x y z Hn) in Hs.
rewrite !quaternion_to_euler_fin by (rewrite ?norm4_opp; assumption).
cbv zeta. rewrite norm4_opp.
set (n := norm4 w x y z) in *.
replace (- w / n) with (- (w / n)) by (field; assumption).
replace (- x / n) with (- (x / n)) by (field; assumption).
replace (- y / n) with (- (y / n)) by (field; assumption).
replace (- z / n) with (- (z / n)) by (field; assumption).
unfold angles_of_unit. rewrite t0R_neg.
destruct (Rlt_dec _ _) as [_ | H]; [| contradiction].
assert (w / n <> 0 \/ x / n <> 0) as Hwx.
{ destruct (Req_dec (w / n) 0) as [Ew | Ew]; [| now left].
  destruct (Req_dec (x / n) 0) as [Ex | Ex]; [| now right].
  exfalso. unfold t0R in Hs. rewrite Ew, Ex in Hs.
  replace (2 * (0 * (y / n) - z / n * 0)) with 0 in Hs by ring.
  rewrite Rclip_zero, Rabs_R0 in Hs. lra. }
eexists _, _. split; [reflexivity |].
destruct (atan2_opp (x / n) (w / n) Hwx) as [E | E]; rewrite E;
  [left | right]; unfold finE; f_equal; apply f_equal; ring.
Qed.

Lemma negation_in_gimbal_lock_witness :
  (1/2, 1/2, 1/2, -1/2) <> (0, 0, 0, 0)
  /\ singular (mkQuaternion (Fin (1/2)) (Fin (1/2)) (Fin (1/2)) (Fin (-1/2)))
     = true
  /\ exists p yw : R,
       quaternion_to_euler
         (mkQuaternion (Fin (1/2)) (Fin (1/2)) (Fin (1/2)) (Fin (-1/2)))
       = mkEulerAngles (Fin 0) (Fin p) (Fin yw).
Proof.
assert ((1/2, 1/2, 1/2, -1/2) <> (0, 0, 0, 0)) as Hne
  by (intros E; injection E as E; lra).
assert (singular (mkQuaternion (Fin (1/2)) (Fin (1/2)) (Fin (1/2)) (Fin (-1/2)))
        = true) as Hs.
{ change (singular (finQ (1/2) (1/2) (1/2) (-1/2)) = true).
  rewrite singular_fin by (apply norm4_neq_0; exact Hne).
  cbv zeta. rewrite (norm4_unit (1/2) (1/2) (1/2) (-1/2)) by lra.
  unfold t0R.
  replace (2 * (1/2 / 1 * (1/2 / 1) - -1/2 / 1 * (1/2 / 1))) with 1 by lra.
  rewrite Rclip_id, Rabs_R1 by lra.
  destruct (Rlt_dec _ _); [reflexivity | lra]. }
split; [exact Hne |]. split; [exact Hs |].
destruct (negation_in_gimbal_lock _ _ _ _ Hne Hs) as (p & yw & E & _).
now exists p, yw.
Defined.

Lemma angles_of_unit_ranges (w x y z : R) :
  exists r p yw : R,
    angles_of_unit w x y z = finE r p yw
    /\ - PI < r <= PI /\ - (PI / 2) <= p <= PI / 2
    /\ - (2 * PI) < yw <= 2 * PI.
Proof.
pose proof PI_RGT_0 as Hpi.
unfold angles_of_unit. destruct (Rlt_dec _ _); eexists _, _, _;
  (split; [reflexivity |]).
- split; [lra |]. split; [apply pitch_lock_range |].
  pose proof (atan2_range x w). lra.
- split; [apply atan2_range |]. split; [apply asin_bound |].
  pose proof (atan2_range (2 * (w * z + x * y)) (1 - 2 * (y * y + z * z))). lra.
Qed.

Lemma degrees_fin (a : R) : np.degrees (Fin a) = Fin (a * (180 / PI)).
Proof. reflexivity. Qed.

(** X11.  The degrees view of a conversion: for a finite quaternion whose
    norm lies between 1e-100 and 1e100, [to_degrees] of the returned
    angles is a list of three finite numbers, roll in [-180, 180], pitch
    in [-90, 90] and yaw in [-360, 360]. *)
Theorem to_degrees_ranges (w x y z : R) :
  1e-100 <= norm4 w x y z <= 1e100 ->
  exists rd pd yd : R,
    to_degrees
      (quaternion_to_euler (mkQuaternion (Fin w) (Fin x) (Fin y) (Fin z)))
    = [Fin rd; Fin pd; Fin yd]
    /\ -180 <= rd <= 180 /\ -90 <= pd <= 90 /\ -360 <= yd <= 360.
Proof.
intros Hrange.
change (mkQuaternion (Fin w) (Fin x) (Fin y) (Fin z)) with (finQ w x y z).
rewrite quaternion_to_euler_fin by lra.
cbv zeta.
destruct (angles_of_unit_ranges (w / norm4 w x y z) (x / norm4 w x y z)
            (y / norm4 w x y z) (z / norm4 w x y z))
  as (r & p & yw & -> & Hr & Hp & Hy).
unfold to_degrees, finE. cbn [roll pitch yaw]. rewrite !degrees_fin.
eexists _, _, _. split; [reflexivity |].
pose proof PI_RGT_0 as Hpi.
assert (0 < 180 / PI) as Hk by (apply Rdiv_lt_0_compat; lra).
assert (PI * (180 / PI) = 180) as Ek by (field; lra).
set (k := 180 / PI) in *.
repeat split; nra.
Qed.

Lemma to_degrees_ranges_witness :
  1e-100 <= norm4 1 0 0 0 <= 1e100
  /\ exists rd pd yd : R,
       to_degrees
         (quaternion_to_euler (mkQuaternion (Fin 1) (Fin 0) (Fin 0) (Fin 0)))
       = [Fin rd; Fin pd; Fin yd].
Proof.
split; [exact identity_in_range |].
destruct (to_degrees_ranges 1 0 0 0 identity_in_range) as (rd & pd & yd & E & _).
now exists rd, pd, yd.
Defined.



(** ** What the returned angles encode *)

Section Entries.

Lemma normalised_unit (w x y z : R) :
  norm4 w x y z <> 0 ->
  let n := norm4 w x y z in
  w / n * (w / n) + x / n * (x / n) + y / n * (y / n) + z / n * (z / n) = 1.
Proof.
intros Hn n.
pose proof (sqrt_sqrt _ (norm4_nonneg_arg w x y z)) as Hsq.
fold (norm4 w x y z) in Hsq. fold n in Hsq, Hn.
replace (w / n * (w / n) + x / n * (x / n) + y / n * (y / n) + z / n * (z / n))
  with ((w * w + x * x + y * y + z * z) / (n * n)) by (field; assumption).
rewrite <- Hsq. field. assumption.
Qed.

(** The sine-of-pitch term of a unit quaternion is within [-1, 1]. *)
Lemma unit_t0_bounds (w x y z : R) :
  w * w + x * x + y * y + z * z = 1 -> -1 <= 2 * (w * y - z * x) <= 1.
Proof.
intros H.
pose proof (Rle_0_sqr (w - y)) as H1. pose proof (Rle_0_sqr (z + x)) as H2.
pose proof (Rle_0_sqr (w + y)) as H3. pose proof (Rle_0_sqr (z - x)) as H4.
unfold Rsqr in *. split; nra.
Qed.

(** Angle of a point other than the origin: its sine and cosine. *)
Lemma atan2_sin_cos (y x rho : R) :
  0 < rho -> rho * rho = x * x + y * y ->
  rho * sin (atan2 y x) = y /\ rho * cos (atan2 y x) = x.
Proof.
intros Hrho Hsq.
assert ((x / rho)² + (y / rho)² = 1) as Hunit.
{ unfold Rsqr. field_simplify_eq; [| lra]. nra. }
assert (-1 <= x / rho <= 1) as Hb.
{ unfold Rsqr in Hunit. split; nra. }
(* an angle theta with cos theta = x / rho and sin theta = y / rho *)
assert (exists theta, cos theta = x / rho /\ sin theta = y / rho)
  as (theta & Hc & Hs).
{ destruct (Rle_dec 0 (y / rho)) as [Hy | Hy].
  - exists (acos (x / rho)). rewrite cos_acos by assumption.
    split; [reflexivity |]. rewrite sin_acos by assumption.
    apply Rsqr_inj; [apply sqrt_pos | assumption |].
    rewrite Rsqr_sqrt; unfold Rsqr in *; nra.
  - exists (- acos (x / rho)). rewrite cos_neg, sin_neg, cos_acos by assumption.
    split; [reflexivity |]. rewrite sin_acos by assumption.
    assert (sqrt (1 - (x / rho)²) = - (y / rho)) as E.
    { apply Rsqr_inj; [apply sqrt_pos | lra |].
      rewrite Rsqr_sqrt; unfold Rsqr in *; nra. }
    rewrite E. ring. }
destruct (atan2_polar_sin_cos rho theta Hrho) as [E1 E2].
rewrite Hc, Hs in E1, E2.
replace (rho * (x / rho)) with x in E1, E2 by (field; lra).
replace (rho * (y / rho)) with y in E1, E2 by (field; lra).
rewrite E1, E2. split; field; lra.
Qed.

Lemma unit_roll_entries (w x y z : R) :
  w * w + x * x + y * y + z * z = 1 ->
  (2 * (w * x + y * z)) * (2 * (w * x + y * z))
  + (1 - 2 * (x * x + y * y)) * (1 - 2 * (x * x + y * y))
  = 1 - (2 * (w * y - z * x)) * (2 * (w * y - z * x)).
Proof. intros H. nsatz. Qed.

Lemma unit_yaw_entries (w x y z : R) :
  w * w + x * x + y * y + z * z = 1 ->
  (2 * (w * z + x * y)) * (2 * (w * z + x * y))
  + (1 - 2 * (y * y + z * z)) * (1 - 2 * (y * y + z * z))
  = 1 - (2 * (w * y - z * x)) * (2 * (w * y - z * x)).
Proof. intros H. nsatz. Qed.

End Entries.

(** X13.  Accuracy of the returned pitch: for a finite quaternion whose
    norm lies between 1e-100 and 1e100, the sine of the returned pitch is
    the clamped t0 exactly in the regular branch, and within 1e-6 of it in
    the gimbal-lock branch. *)
Theorem pitch_sine_accuracy (w x y z : R) :
  1e-100 <= norm4 w x y z <= 1e100 ->
  let q := mkQuaternion (Fin w) (Fin x) (Fin y) (Fin z) in
  exists t p : R,
    clamped_t0 q = Fin t
    /\ pitch (quaternion_to_euler q) = Fin p
    /\ Rabs (sin p - t) < 1e-6
    /\ (singular q = false -> sin p = t).
Proof.
intros Hrange q. subst q.
change (mkQuaternion (Fin w) (Fin x) (Fin y) (Fin z)) with (finQ w x y z).
assert (norm4 w x y z <> 0) as Hn by lra.
rewrite clamped_t0_fin, singular_fin, quaternion_to_euler_fin by assumption.
cbv zeta. unfold angles_of_unit.
set (t := t0R _ _ _ _).
assert (-1 <= t <= 1) as Hb by apply Rclip_bounds.
destruct (Rlt_dec _ _) as [Hs | Hs]; eexists _, _;
  (split; [reflexivity |]); (split; [reflexivity |]).
- split; [| discriminate].
  destruct (Rlt_dec 0 t) as [Hpos | Hneg].
  + rewrite Rsign_pos, Rmult_1_r, sin_PI2 by assumption.
    rewrite Rabs_pos_eq in Hs by lra. apply Rabs_def1; lra.
  + assert (t < 0) as Hlt.
    { destruct (Rtotal_order t 0) as [? | [Hz | ?]]; [assumption | | lra].
      rewrite Hz, Rabs_R0 in Hs. lra. }
    rewrite Rsign_neg by assumption.
    replace (PI / 2 * -1) with (- (PI / 2)) by lra.
    rewrite sin_neg, sin_PI2.
    rewrite Rabs_left in Hs by lra. apply Rabs_def1; lra.
- rewrite sin_asin by assumption.
  split; [| reflexivity].
  rewrite Rminus_diag, Rabs_R0. lra.
Qed.

Lemma pitch_sine_accuracy_witness :
  1e-100 <= norm4 1 0 0 0 <= 1e100
  /\ exists t p : R,
       clamped_t0 (mkQuaternion (Fin 1) (Fin 0) (Fin 0) (Fin 0)) = Fin t
       /\ pitch (quaternion_to_euler
                   (mkQuaternion (Fin 1) (Fin 0) (Fin 0) (Fin 0))) = Fin p.
Proof.
split; [exact identity_in_range |].
destruct (pitch_sine_accuracy 1 0 0 0 identity_in_range) as (t & p & Et & Ep & _).
now exists t, p.
Defined.

(** X14.  The returned angles encode the rotation of the input.  In the
    regular branch, for a finite quaternion whose norm n lies between
    1e-100 and 1e100 and with w, x, y, z its components divided by n, the
    returned (roll, pitch, yaw) satisfy sin pitch = 2(wy - zx),
    cos pitch * (sin roll, cos roll) = (2(wx + yz), 1 - 2(x^2 + y^2)) and
    cos pitch * (sin yaw, cos yaw) = (2(wz + xy), 1 - 2(y^2 + z^2)); and
    the quaternion rebuilt from them by [euler_to_quaternion] has the same
    five quantities. *)
Theorem regular_angles_reproduce_entries (w0 x0 y0 z0 : R) :
  1e-100 <= norm4 w0 x0 y0 z0 <= 1e100 ->
  let q := mkQuaternion (Fin w0) (Fin x0) (Fin y0) (Fin z0) in
  singular q = false ->
  let n := norm4 w0 x0 y0 z0 in
  let w := w0 / n in
  let x := x0 / n in
  let y := y0 / n in
  let z := z0 / n in
  exists r p yw w' x' y' z' : R,
    quaternion_to_euler q = mkEulerAngles (Fin r) (Fin p) (Fin yw)
    /\ (sin p = 2 * (w * y - z * x)
        /\ cos p * sin r = 2 * (w * x + y * z)
        /\ cos p * cos r = 1 - 2 * (x * x + y * y)
        /\ cos p * sin yw = 2 * (w * z + x * y)
        /\ cos p * cos yw = 1 - 2 * (y * y + z * z))
    /\ euler_to_quaternion (quaternion_to_euler q)
       = mkQuaternion (Fin w') (Fin x') (Fin y') (Fin z')
    /\ (2 * (w' * y' - z' * x') = 2 * (w * y - z * x)
        /\ 2 * (w' * x' + y' * z') = 2 * (w * x + y * z)
        /\ 1 - 2 * (x' * x' + y' * y') = 1 - 2 * (x * x + y * y)
        /\ 2 * (w' * z' + x' * y') = 2 * (w * z + x * y)
        /\ 1 - 2 * (y' * y' + z' * z') = 1 - 2 * (y * y + z * z)).
Proof.
intros Hrange q. subst q.
change (mkQuaternion (Fin w0) (Fin x0) (Fin y0) (Fin z0)) with (finQ w0 x0 y0 z0).
assert (norm4 w0 x0 y0 z0 <> 0) as Hn by lra.
intros Hreg n w x y z. apply (singular_regular_fin w0 x0 y0 z0 Hn) in Hreg.
pose proof (normalised_unit w0 x0 y0 z0 Hn) as Hu. cbv zeta in Hu.
rewrite quaternion_to_euler_fin by assumption. cbv zeta.
fold n in Hreg, Hu |- *. fold w x y z in Hreg, Hu |- *.
pose proof (unit_t0_bounds w x y z Hu) as Hb.
unfold angles_of_unit, t0R in *. rewrite Rclip_id in * by assumption.
destruct (Rlt_dec _ _) as [Hs | _]; [contradiction |].
set (t := 2 * (w * y - z * x)) in *.
set (r := atan2 (2 * (w * x + y * z)) (1 - 2 * (x * x + y * y))).
set (yw := atan2 (2 * (w * z + x * y)) (1 - 2 * (y * y + z * z))).
assert (Rabs t < 1) as Ht by lra.
assert (-1 < t < 1) as Ht' by (apply Rabs_def2 in Ht; lra).
assert (0 <= 1 - t * t) as Hnn by nra.
assert (cos (asin t) = sqrt (1 - t * t)) as Ec.
{ rewrite cos_asin by lra. unfold Rsqr. reflexivity. }
assert (0 < sqrt (1 - t * t)) as Hrho by (apply sqrt_lt_R0; nra).
pose proof (sqrt_sqrt _ Hnn) as Hsq.
assert (sin (asin t) = t) as Es by (apply sin_asin; lra).
destruct (atan2_sin_cos (2 * (w * x + y * z)) (1 - 2 * (x * x + y * y))
            (sqrt (1 - t * t)) Hrho) as [Er1 Er2].
{ rewrite Hsq. subst t. rewrite <- (unit_roll_entries w x y z Hu). ring. }
destruct (atan2_sin_cos (2 * (w * z + x * y)) (1 - 2 * (y * y + z * z))
            (sqrt (1 - t * t)) Hrho) as [Ey1 Ey2].
{ rewrite Hsq. subst t. rewrite <- (unit_yaw_entries w x y z Hu). ring. }
fold r in Er1, Er2. fold yw in Ey1, Ey2. rewrite <- Ec in Er1, Er2, Ey1, Ey2.
exists r, (asin t), yw.
rewrite euler_to_quaternion_fin.
eexists _, _, _, _. split; [reflexivity |].
split; [now repeat split |].
split; [reflexivity |].
rewrite zyx_t0, zyx_roll_sin, zyx_roll_cos, zyx_yaw_sin, zyx_yaw_cos.
now repeat split.
Qed.

Lemma regular_angles_reproduce_entries_witness :
  1e-100 <= norm4 1 0 0 0 <= 1e100
  /\ singular (mkQuaternion (Fin 1) (Fin 0) (Fin 0) (Fin 0)) = false
  /\ exists r p yw : R,
       quaternion_to_euler (mkQuaternion (Fin 1) (Fin 0) (Fin 0) (Fin 0))
       = mkEulerAngles (Fin r) (Fin p) (Fin yw).
Proof.
pose proof identity_is_regular as Hs.
split; [exact identity_in_range |]. split; [exact Hs |].
destruct (regular_angles_reproduce_entries 1 0 0 0 identity_in_range Hs)
  as (r & p & yw & _ & _ & _ & _ & E & _).
now exists r, p, yw.
Defined.
